(** * Incremental replication Postgres -> Snowflake

    Shallow embedding of [src/airflow/postgres_to_snowflake.py]: the two
    Airflow tasks [get_max_primary_key] and [load_incremental_data], and the
    per-table glue that chains them.

    The tasks talk to two external stores through DB-API cursors.  The
    stores are modelled as explicit state (a record [world]); a task is a
    state-and-error computation over it.  A Python exception is an [Err]
    result: the state reached when it was raised is kept, as nothing in the
    source opens a transaction or undoes a statement that already ran.

    Conventions of the store model:
    - identifiers are compared exactly (no case folding);
    - a cell is NULL, an integer or a text; the key column [ID_<table>] is
      meant to hold integers (the source annotates [max_id: int]), and a
      text met in a key column is reported as a store error;
    - the source catalog [information_schema.columns] is derived from the
      tables of the source store, in the order the store lists them. *)

From Stdlib Require Import ZArith String List Lia.
From stdpp Require Import base option list strings gmap pretty.

Local Open Scope Z_scope.

(** ** Values, rows, results *)

Inductive value :=
| VNull
| VInt (z : Z)
| VText (s : string).

(** A fetched row (a Python tuple) and a parameter tuple. *)
Abbreviation row := (list value).

Inductive error :=
| UndefinedTable (t : string)
| UndefinedColumn (c : string)
| DuplicateColumn (c : string)
| TypeMismatch (c : string)
| NotNullViolation (c : string)
| SyntaxError
| BindError.

Inductive result (A : Type) :=
| Ok (a : A)
| Err (e : error).
Arguments Ok {A} a.
Arguments Err {A} e.

Definition is_ok {A} (r : result A) : bool :=
  match r with Ok _ => true | Err _ => false end.

(** Position of a column name in a column list (first occurrence). *)
Fixpoint col_index (c : string) (cols : list string) : option nat :=
  match cols with
  | [] => None
  | c' :: cols' =>
      if decide (c = c') then Some 0%nat
      else S <$> col_index c cols'
  end.

(** [r[i]], NULL past the end of a short row. *)
Definition cell (i : nat) (r : row) : value := default VNull (r !! i).

(** The value of column [c] in a row laid out along [cols]. *)
Definition field (cols : list string) (c : string) (r : row) : value :=
  match col_index c cols with
  | Some i => cell i r
  | None => VNull
  end.

(** Python's [row[0]] on a catalog row, whose single cell is a text. *)
Definition as_str (v : value) : string :=
  match v with VText s => s | _ => "" end.

(** ** The statements the two tasks send *)

Inductive statement :=
| SelectMax (column table : string)
| InsertValues (table : string) (columns : list string) (nplaceholders : nat)
| SelectColumnNames (table : string)
| SelectWhereGt (projection : list string) (table key : string) (bound : Z).

(** [', '.join(columns)] *)
Definition columns_list_str (columns : list string) : string :=
  String.concat ", " columns.

(** [', '.join(['%s'] * n)] *)
Definition placeholders (n : nat) : string :=
  String.concat ", " (replicate n "%s").

(** The text of each statement, as the f-strings of the source build it. *)
Definition sql (q : statement) : string :=
  match q with
  | SelectMax c t =>
      "SELECT MAX(" +:+ c +:+ ") FROM " +:+ t
  | InsertValues t cols n =>
      "INSERT INTO " +:+ t +:+ " (" +:+ columns_list_str cols
        +:+ ") VALUES (" +:+ placeholders n +:+ ")"
  | SelectColumnNames t =>
      "SELECT column_name FROM information_schema.columns WHERE table_name = '"
        +:+ t +:+ "'"
  | SelectWhereGt proj t k b =>
      "SELECT " +:+ columns_list_str proj +:+ " FROM " +:+ t
        +:+ " WHERE " +:+ k +:+ " > " +:+ pretty b
  end.

(** ** The source store (Postgres) *)

Module Pg.

Record table := {
  table_schema : string;
  table_name : string;
  columns : list string;
  rows : list row
}.

(** Tables of every schema, in catalog order, and the schemas an
    unqualified table name is looked up in. *)
Record store := {
  search_path : list string;
  tables : list table
}.

Record catalog_row := {
  cat_schema : string;
  cat_table : string;
  cat_column : string
}.

(** [information_schema.columns]: one row per column of every table. *)
Definition information_schema_columns (db : store) : list catalog_row :=
  t ← tables db;
  (λ c, {| cat_schema := table_schema t;
           cat_table := table_name t;
           cat_column := c |}) <$> columns t.

(** [SELECT column_name FROM information_schema.columns
     WHERE table_name = '<tn>'] *)
Definition select_column_names (db : store) (tn : string) : list row :=
  (λ r, [VText (cat_column r)])
    <$> filter (λ r, cat_table r = tn) (information_schema_columns db).

(** An unqualified [FROM <tn>]: the table of that name in the first
    schema of the search path that has one. *)
Fixpoint resolve_in (path : list string) (ts : list table) (tn : string)
  : option table :=
  match path with
  | [] => None
  | s :: path' =>
      match List.find (λ t, bool_decide (table_schema t = s ∧ table_name t = tn)) ts with
      | Some t => Some t
      | None => resolve_in path' ts tn
      end
  end.

Definition resolve (db : store) (tn : string) : option table :=
  resolve_in (search_path db) (tables db) tn.

(** First projected column that the table does not have. *)
Definition unknown_column (proj cols : list string) : option string :=
  List.find (λ c, bool_decide (c ∉ cols)) proj.

(** [<key> > <bound>] on one cell: NULL compares as unknown, so the row
    is not selected. *)
Definition key_gt (key : string) (bound : Z) (v : value) : result bool :=
  match v with
  | VNull => Ok false
  | VInt z => Ok (bool_decide (bound < z))
  | VText _ => Err (TypeMismatch key)
  end.

(** The projection of one row of a table with columns [cols]. *)
Definition project (cols proj : list string) (r : row) : row :=
  (λ c, field cols c r) <$> proj.

Fixpoint scan (cols proj : list string) (key : string) (bound : Z)
    (rs : list row) : result (list row) :=
  match rs with
  | [] => Ok []
  | r :: rs' =>
      match key_gt key bound (field cols key r) with
      | Err e => Err e
      | Ok b =>
          match scan cols proj key bound rs' with
          | Err e => Err e
          | Ok out => Ok (if b then project cols proj r :: out else out)
          end
      end
  end.

(** [SELECT <projection> FROM <tn> WHERE <key> > <bound>] *)
Definition select_where_gt (db : store) (projection : list string)
    (tn key : string) (bound : Z) : result (list row) :=
  match resolve db tn with
  | None => Err (UndefinedTable tn)
  | Some t =>
      if bool_decide (key ∉ columns t) then Err (UndefinedColumn key)
      else
        match unknown_column projection (columns t) with
        | Some c => Err (UndefinedColumn c)
        | None => scan (columns t) projection key bound (rows t)
        end
  end.

(** What a cursor returns for [execute] followed by [fetchall]. *)
Definition query (db : store) (q : statement) : result (list row) :=
  match q with
  | SelectColumnNames tn => Ok (select_column_names db tn)
  | SelectWhereGt proj tn key bound => select_where_gt db proj tn key bound
  | _ => Err SyntaxError
  end.

End Pg.

(** ** The destination store (Snowflake) *)

Module Sf.

Record column := {
  column_name : string;
  not_null : bool
}.

Record table := {
  columns : list column;
  rows : list row
}.

Definition names (t : table) : list string := column_name <$> columns t.

(** The SQL aggregate [MAX] over a column: NULLs are skipped, and no
    value at all gives NULL ([None]). *)
Fixpoint max_agg (c : string) (vs : list value) : result (option Z) :=
  match vs with
  | [] => Ok None
  | v :: vs' =>
      match max_agg c vs' with
      | Err e => Err e
      | Ok m =>
          match v with
          | VNull => Ok m
          | VInt z => Ok (Some (match m with None => z | Some m' => Z.max z m' end))
          | VText _ => Err (TypeMismatch c)
          end
      end
  end.

(** The cells of column [c], row after row. *)
Definition column_cells (t : table) (c : string) : list value :=
  field (names t) c <$> rows t.

(** [SELECT MAX(<c>) FROM <tn>] *)
Definition select_max (db : gmap string table) (c tn : string)
  : result (option Z) :=
  match db !! tn with
  | None => Err (UndefinedTable tn)
  | Some t =>
      if bool_decide (c ∉ names t) then Err (UndefinedColumn c)
      else max_agg c (column_cells t c)
  end.

(** First listed column that the table does not have. *)
Definition unknown_column (cols : list string) (cs : list column)
  : option string :=
  List.find (λ c, bool_decide (c ∉ column_name <$> cs)) cols.

(** First column listed twice. *)
Fixpoint duplicate_column (cols : list string) : option string :=
  match cols with
  | [] => None
  | c :: cols' =>
      if bool_decide (c ∈ cols') then Some c else duplicate_column cols'
  end.

(** The stored row: each table column takes the parameter bound to the
    placeholder at the position of its name in the column list, NULL when
    the list does not name it. *)
Definition stored_row (cols : list string) (params : row)
    (cs : list column) : row :=
  (λ c, field cols (column_name c) params) <$> cs.

(** First NOT NULL column that would receive a NULL. *)
Fixpoint null_violation (cs : list column) (r : row) : option string :=
  match cs, r with
  | c :: cs', v :: r' =>
      match v with
      | VNull =>
          if not_null c then Some (column_name c) else null_violation cs' r'
      | _ => null_violation cs' r'
      end
  | _, _ => None
  end.

(** What the store checks before it stores a row in a table with columns
    [cs]: as many parameters as placeholders, a column list that is not
    empty, names only columns of the table and names none twice, and no
    NULL in a NOT NULL column.  The answer is the row to store. *)
Definition check_row (cs : list column) (cols : list string)
    (nplaceholders : nat) (params : row) : result row :=
  if negb (bool_decide (nplaceholders = length params)) then Err BindError
  else if bool_decide (cols = []) then Err SyntaxError
  else
    match unknown_column cols cs with
    | Some c => Err (UndefinedColumn c)
    | None =>
        match duplicate_column cols with
        | Some c => Err (DuplicateColumn c)
        | None =>
            let r := stored_row cols params cs in
            match null_violation cs r with
            | Some c => Err (NotNullViolation c)
            | None => Ok r
            end
        end
    end.

Definition add_rows (rs : list row) (t : table) : table :=
  {| columns := columns t; rows := rows t ++ rs |}.

(** [INSERT INTO <tn> (<cols>) VALUES (%s, ..., %s)] with [params] bound
    to the placeholders: the row is appended to the table. *)
Definition insert (db : gmap string table) (tn : string) (cols : list string)
    (nplaceholders : nat) (params : row) : result (gmap string table) :=
  match db !! tn with
  | None => Err (UndefinedTable tn)
  | Some t =>
      match check_row (columns t) cols nplaceholders params with
      | Err e => Err e
      | Ok r => Ok (<[tn := add_rows [r] t]> db)
      end
  end.

End Sf.

(** ** The world the tasks run in *)

Record world := {
  pg : Pg.store;
  sf : gmap string Sf.table;
  (** statements executed on a Postgres cursor, oldest first *)
  pg_log : list statement;
  (** statements executed on a Snowflake cursor with their parameters *)
  sf_log : list (statement * row)
}.

Definition M (A : Type) : Type := world → result A * world.

Definition ret {A} (a : A) : M A := λ w, (Ok a, w).

Definition bind {A B} (m : M A) (k : A → M B) : M B :=
  λ w, match m w with
       | (Ok a, w') => k a w'
       | (Err e, w') => (Err e, w')
       end.

Notation "x <~ m ;; k" := (bind m (λ x, k))
  (at level 100, m at next level, right associativity).

Definition log_pg (q : statement) (w : world) : world :=
  {| pg := pg w; sf := sf w; pg_log := pg_log w ++ [q]; sf_log := sf_log w |}.

Definition log_sf (q : statement) (params : row) (w : world) : world :=
  {| pg := pg w; sf := sf w; pg_log := pg_log w; sf_log := sf_log w ++ [(q, params)] |}.

Definition set_sf (db : gmap string Sf.table) (w : world) : world :=
  {| pg := pg w; sf := db; pg_log := pg_log w; sf_log := sf_log w |}.

(** [pg_cursor.execute(q)] followed by [pg_cursor.fetchall()]. *)
Definition pg_execute_fetchall (q : statement) : M (list row) :=
  λ w, (Pg.query (pg w) q, log_pg q w).

(** [cursor.execute("SELECT MAX(..) FROM ..")] followed by
    [cursor.fetchone()[0]]: the aggregate, [None] for NULL. *)
Definition sf_execute_fetchone0 (q : statement) : M (option Z) :=
  λ w,
    let w' := log_sf q [] w in
    match q with
    | SelectMax c tn => (Sf.select_max (sf w) c tn, w')
    | _ => (Err SyntaxError, w')
    end.

(** [sf_cursor.execute(q, params)] for a statement that returns no rows. *)
Definition sf_execute (q : statement) (params : row) : M unit :=
  λ w,
    let w' := log_sf q params w in
    match q with
    | InsertValues tn cols n =>
        match Sf.insert (sf w) tn cols n params with
        | Ok db => (Ok (), set_sf db w')
        | Err e => (Err e, w')
        end
    | _ => (Err SyntaxError, w')
    end.

(** ** The tasks *)

Definition table_names : list string :=
  ["veiculos"; "estados"; "cidades"; "concessionarias"; "vendedores";
   "clientes"; "vendas"].

Definition get_max_primary_key (table_name : string) : M Z :=
  max_id <~ sf_execute_fetchone0
              (SelectMax ("ID_" +:+ table_name) table_name) ;;
  ret (match max_id with Some m => m | None => 0 end).

(** [for row in rows: sf_cursor.execute(insert_query, row)] *)
Fixpoint insert_rows (insert_query : statement) (rows : list row) : M unit :=
  match rows with
  | [] => ret ()
  | row :: rows' =>
      _ <~ sf_execute insert_query row ;;
      insert_rows insert_query rows'
  end.

(** Lines 119-127 of the task: column discovery, then the selection of
    the rows above the watermark.  Returns [columns] and [rows]. *)
Definition extract (table_name : string) (max_id : Z)
  : M (list string * list row) :=
  let primary_key := "ID_" +:+ table_name in
  fetched <~ pg_execute_fetchall (SelectColumnNames table_name) ;;
  let columns := (λ row, as_str (cell 0 row)) <$> fetched in
  rows <~ pg_execute_fetchall
            (SelectWhereGt columns table_name primary_key max_id) ;;
  ret (columns, rows).

Definition load_incremental_data (table_name : string) (max_id : Z) : M unit :=
  cr <~ extract table_name max_id ;;
  let columns := cr.1 in
  let rows := cr.2 in
  let insert_query := InsertValues table_name columns (length columns) in
  insert_rows insert_query rows.

(** The two tasks of one table, chained as the DAG chains them. *)
Definition pipeline (table_name : string) : M unit :=
  max_id <~ get_max_primary_key table_name ;;
  load_incremental_data table_name max_id.

(** ** Notions the statements are written with *)

(** The name of the key column of a table. *)
Definition primary_key (table_name : string) : string := "ID_" +:+ table_name.

(** The key of a row is an integer above the watermark. *)
Definition key_above (bound : Z) (v : value) : Prop :=
  match v with VInt z => bound < z | _ => False end.

Global Instance key_above_dec bound v : Decision (key_above bound v).
Proof. destruct v; simpl; apply _. Defined.

Definition is_text (v : value) : Prop :=
  match v with VText _ => True | _ => False end.

Global Instance is_text_dec v : Decision (is_text v).
Proof. destruct v; simpl; apply _. Defined.

(** The integers among a list of cells. *)
Definition as_int (v : value) : option Z :=
  match v with VInt z => Some z | _ => None end.

Definition ints (vs : list value) : list Z := omap as_int vs.

(** The column list [load_incremental_data] computes from the catalog. *)
Definition discovered (db : Pg.store) (table_name : string) : list string :=
  (λ row, as_str (cell 0 row)) <$> Pg.select_column_names db table_name.

(** The largest of a list of integers, [None] for the empty list. *)
Definition max_of (zs : list Z) : option Z :=
  foldr (λ z m, Some (match m with None => z | Some m' => Z.max z m' end))
        None zs.

(** The watermark of a destination table: the largest integer key, 0 when
    there is none. *)
Definition watermark (t : Sf.table) (key : string) : Z :=
  default 0 (max_of (ints (Sf.column_cells t key))).

(** Rows appended to a table of the destination, if it is there. *)
Definition appended (tn : string) (rs : list row) (db : gmap string Sf.table)
  : gmap string Sf.table :=
  match db !! tn with
  | Some t => <[tn := Sf.add_rows rs t]> db
  | None => db
  end.

(** The source store as it is when a run starts. *)
Definition set_pg (db : Pg.store) (w : world) : world :=
  {| pg := db; sf := sf w; pg_log := pg_log w; sf_log := sf_log w |}.

(** A sequence of scheduled runs: each is the pipeline of one table, on the
    source as it is at that time.  A run that fails leaves the world as it
    was when the error was raised, and the next run goes on from there. *)
Fixpoint runs (schedule : list (string * Pg.store)) (w : world) : world :=
  match schedule with
  | [] => w
  | (tn, db) :: schedule' => runs schedule' (pipeline tn (set_pg db w)).2
  end.

(** The task ids the DAG function gives the two tasks of a table:
    [f'get_max_id_{table_name}'] and [f'load_data_{table_name}']. *)
Definition get_max_task_id (table_name : string) : string :=
  "get_max_id_" +:+ table_name.

Definition load_task_id (table_name : string) : string :=
  "load_data_" +:+ table_name.

(** The tasks the loop of the DAG function declares, table after table. *)
Definition dag_task_ids (names : list string) : list string :=
  tn ← names; [get_max_task_id tn; load_task_id tn].

(** The dependencies it declares: the load task of a table consumes the
    value its watermark task returns. *)
Definition dag_edges (names : list string) : list (string * string) :=
  (λ tn, (get_max_task_id tn, load_task_id tn)) <$> names.

(** Cells and statements can be compared. *)
Global Instance value_eq_dec : EqDecision value.
Proof. solve_decision. Defined.

Global Instance statement_eq_dec : EqDecision statement.
Proof. solve_decision. Defined.

(** A list of keys in strictly ascending order. *)
Fixpoint ascending (zs : list Z) : Prop :=
  match zs with
  | [] => True
  | z :: zs' => Forall (λ z', z < z') zs' ∧ ascending zs'
  end.

Global Instance ascending_dec zs : Decision (ascending zs).
Proof. induction zs as [|z zs IH]; simpl; apply _. Defined.

(** ** Scenarios of the specification *)

Module Scenario.

Definition estado (i : Z) (uf : string) : row := [VInt i; VText uf].

Definition source : Pg.store :=
  {| Pg.search_path := ["public"];
     Pg.tables :=
       [ {| Pg.table_schema := "public"; Pg.table_name := "estados";
            Pg.columns := ["ID_estados"; "sigla"];
            Pg.rows := [estado 1 "SP"; estado 2 "RJ"; estado 3 "MG";
                        estado 4 "PR"; estado 5 "BA"] |} ] |}.

Definition estados_columns : list Sf.column :=
  [ {| Sf.column_name := "ID_estados"; Sf.not_null := true |};
    {| Sf.column_name := "sigla"; Sf.not_null := true |} ].

Definition destination : gmap string Sf.table :=
  {[ "estados" :=
       {| Sf.columns := estados_columns;
          Sf.rows := [estado 1 "SP"; estado 2 "RJ"; estado 3 "MG"] |} ]}.

Definition w0 : world :=
  {| pg := source; sf := destination; pg_log := []; sf_log := [] |}.

End Scenario.

Module Partial.

Definition source : Pg.store :=
  {| Pg.search_path := ["public"];
     Pg.tables :=
       [ {| Pg.table_schema := "public"; Pg.table_name := "vendedores";
            Pg.columns := ["ID_vendedores"; "nome"];
            Pg.rows := [[VInt 1; VText "Ana"]; [VInt 2; VNull];
                        [VInt 3; VText "Bia"]] |} ] |}.

Definition destination : gmap string Sf.table :=
  {[ "vendedores" :=
       {| Sf.columns :=
            [ {| Sf.column_name := "ID_vendedores"; Sf.not_null := true |};
              {| Sf.column_name := "nome"; Sf.not_null := true |} ];
          Sf.rows := [] |} ]}.

Definition w0 : world :=
  {| pg := source; sf := destination; pg_log := []; sf_log := [] |}.

End Partial.

(** The same table name in two schemas of the source. *)
Module TwoSchemas.

Definition source : Pg.store :=
  {| Pg.search_path := ["public"];
     Pg.tables :=
       [ {| Pg.table_schema := "public"; Pg.table_name := "vendas";
            Pg.columns := ["ID_vendas"; "valor"];
            Pg.rows := [[VInt 1; VInt 100]] |};
         {| Pg.table_schema := "archive"; Pg.table_name := "vendas";
            Pg.columns := ["ID_vendas"; "valor"];
            Pg.rows := [] |} ] |}.

Definition destination : gmap string Sf.table :=
  {[ "vendas" :=
       {| Sf.columns :=
            [ {| Sf.column_name := "ID_vendas"; Sf.not_null := true |};
              {| Sf.column_name := "valor"; Sf.not_null := false |} ];
          Sf.rows := [] |} ]}.

Definition w0 : world :=
  {| pg := source; sf := destination; pg_log := []; sf_log := [] |}.

End TwoSchemas.

(** The tables of the two scenarios above, side by side. *)
Module Both.

Definition source : Pg.store :=
  {| Pg.search_path := ["public"];
     Pg.tables := Pg.tables Scenario.source ++ Pg.tables Partial.source |}.

Definition destination : gmap string Sf.table :=
  Scenario.destination ∪ Partial.destination.

Definition w0 : world :=
  {| pg := source; sf := destination; pg_log := []; sf_log := [] |}.

End Both.

(** A first load: an empty destination table, and a source with a key 0. *)
Module Bootstrap.

Definition source : Pg.store :=
  {| Pg.search_path := ["public"];
     Pg.tables :=
       [ {| Pg.table_schema := "public"; Pg.table_name := "vendedores";
            Pg.columns := ["ID_vendedores"; "nome"];
            Pg.rows := [[VInt 0; VText "Zero"]; [VInt 1; VText "Ana"]] |} ] |}.

Definition w0 : world :=
  {| pg := source; sf := Partial.destination; pg_log := []; sf_log := [] |}.

End Bootstrap.

(** A source that returns its rows in an order other than that of the
    keys, with a row in the middle that the destination refuses. *)
Module Unordered.

Definition source : Pg.store :=
  {| Pg.search_path := ["public"];
     Pg.tables :=
       [ {| Pg.table_schema := "public"; Pg.table_name := "vendedores";
            Pg.columns := ["ID_vendedores"; "nome"];
            Pg.rows := [[VInt 3; VText "Caio"]; [VInt 2; VNull];
                        [VInt 1; VText "Ana"]] |} ] |}.

Definition w0 : world :=
  {| pg := source; sf := Partial.destination; pg_log := []; sf_log := [] |}.

End Unordered.

(** ** Column positions and fields *)

Section Fields.

Lemma col_index_lookup c cols i :
  col_index c cols = Some i → cols !! i = Some c.
Proof.
  revert i. induction cols as [|c' cols IH]; intros i; simpl; [done|].
  case_decide as Hc.
  - intros [= <-]. by subst.
  - destruct (col_index c cols) as [j|] eqn:Hj; simpl; [|done].
    intros [= <-]. by apply IH.
Qed.

Lemma col_index_None c cols : col_index c cols = None ↔ c ∉ cols.
Proof.
  induction cols as [|c' cols IH]; simpl.
  - split; [intros _; apply not_elem_of_nil | done].
  - rewrite not_elem_of_cons. case_decide as Hc.
    + split; [done | intros [? _]; done].
    + destruct (col_index c cols) as [j|]; simpl.
      * split; [done | intros [_ Hn]; by apply IH in Hn].
      * split; [intros _; split; [done | by apply IH] | done].
Qed.

Lemma col_index_elem c cols : c ∈ cols → is_Some (col_index c cols).
Proof.
  intros Hin. destruct (col_index c cols) eqn:E; [by eexists|].
  by apply col_index_None in E.
Qed.

(** Reading column [c] in a row that was built column by column. *)
Lemma field_fmap (f : string → value) cols c :
  c ∈ cols → field cols c (f <$> cols) = f c.
Proof.
  intros [i Hi]%col_index_elem. unfold field, cell. rewrite Hi.
  apply col_index_lookup in Hi. by rewrite list_lookup_fmap, Hi.
Qed.

Lemma field_fmap_absent (f : string → value) cols c :
  c ∉ cols → field cols c (f <$> cols) = VNull.
Proof. intros Hc%col_index_None. unfold field. by rewrite Hc. Qed.

End Fields.

(** ** The source store *)

Section Source.

Lemma key_gt_Ok key bound v b :
  Pg.key_gt key bound v = Ok b → ¬ is_text v ∧ b = bool_decide (key_above bound v).
Proof.
  destruct v as [|z|s]; simpl; intros [= <-]; (split; [tauto | done]).
Qed.

Lemma key_gt_not_text key bound v :
  ¬ is_text v → Pg.key_gt key bound v = Ok (bool_decide (key_above bound v)).
Proof.
  destruct v as [|z|s]; simpl; intros H; [done | done | tauto].
Qed.

(** A scan that succeeds returns the projections of exactly the rows
    above the bound, in table order. *)
Lemma scan_Ok cols proj key bound rs out :
  Pg.scan cols proj key bound rs = Ok out →
  Forall (λ r, ¬ is_text (field cols key r)) rs
  ∧ out = Pg.project cols proj
            <$> filter (λ r, key_above bound (field cols key r)) rs.
Proof.
  revert out. induction rs as [|r rs IH]; intros out; simpl.
  - intros [= <-]. done.
  - destruct (Pg.key_gt key bound (field cols key r)) as [b|e] eqn:Hk; [|done].
    destruct (Pg.scan cols proj key bound rs) as [out'|e]; [|done].
    intros [= <-]. destruct (IH _ eq_refl) as [Hall ->].
    apply key_gt_Ok in Hk as [Hnt ->]. split; [by constructor|].
    rewrite filter_cons. case_bool_decide; by case_decide.
Qed.

(** It succeeds whenever the key column holds no text, whatever the
    bound. *)
Lemma scan_total cols proj key bound rs :
  Forall (λ r, ¬ is_text (field cols key r)) rs →
  Pg.scan cols proj key bound rs
  = Ok (Pg.project cols proj
          <$> filter (λ r, key_above bound (field cols key r)) rs).
Proof.
  induction 1 as [|r rs Hr _ IH]; simpl; [done|].
  rewrite (key_gt_not_text _ _ _ Hr), IH, filter_cons.
  case_bool_decide; by case_decide.
Qed.

Lemma find_Some_elem {A} (f : A → bool) (l : list A) x :
  List.find f l = Some x → x ∈ l ∧ f x = true.
Proof.
  induction l as [|y l IH]; simpl; [done|].
  destruct (f y) eqn:Hy.
  - intros [= <-]. split; [left | done].
  - intros [? ?]%IH. split; [by right | done].
Qed.

Lemma find_None_Forall {A} (f : A → bool) (l : list A) :
  List.find f l = None ↔ Forall (λ x, f x = false) l.
Proof.
  induction l as [|y l IH]; simpl.
  - split; [constructor | done].
  - destruct (f y) eqn:Hy.
    + split; [done | inversion 1; congruence].
    + rewrite IH. split; [by constructor | by inversion 1].
Qed.

Lemma resolve_in_Some path ts tn t :
  Pg.resolve_in path ts tn = Some t → t ∈ ts ∧ Pg.table_name t = tn.
Proof.
  induction path as [|s path IH]; simpl; [done|].
  destruct (List.find _ ts) as [t'|] eqn:Hf; [|done].
  intros [= <-]. apply find_Some_elem in Hf as [Hin Hb].
  apply bool_decide_eq_true in Hb as [_ Hn]. done.
Qed.

(** The discovered columns are the columns of every table of that name,
    schema after schema, in catalog order. *)
Lemma discovered_tables ts path tn :
  discovered {| Pg.search_path := path; Pg.tables := ts |} tn
  = mjoin (Pg.columns <$> filter (λ t, Pg.table_name t = tn) ts).
Proof.
  unfold discovered, Pg.select_column_names, Pg.information_schema_columns.
  simpl. induction ts as [|t ts IH]; [done|].
  rewrite bind_cons, filter_app, !fmap_app, IH, filter_cons.
  assert (Hhd : ∀ cs : list string,
    (λ row, as_str (cell 0 row)) <$>
      ((λ r, [VText (Pg.cat_column r)]) <$>
         filter (λ r, Pg.cat_table r = tn)
           ((λ c, {| Pg.cat_schema := Pg.table_schema t;
                     Pg.cat_table := Pg.table_name t;
                     Pg.cat_column := c |}) <$> cs))
    = if decide (Pg.table_name t = tn) then cs else []).
  { induction cs as [|c cs IHc]; [by case_decide|].
    rewrite fmap_cons, filter_cons. cbn [Pg.cat_table].
    destruct (decide (Pg.table_name t = tn)) as [Hn|Hn].
    - rewrite !fmap_cons, IHc. done.
    - apply IHc. }
  rewrite Hhd. by case_decide.
Qed.

Lemma discovered_concat db tn :
  discovered db tn
  = mjoin (Pg.columns <$> filter (λ t, Pg.table_name t = tn) (Pg.tables db)).
Proof. destruct db. apply discovered_tables. Qed.

Lemma discovered_contains db tn t c :
  t ∈ Pg.tables db → Pg.table_name t = tn → c ∈ Pg.columns t →
  c ∈ discovered db tn.
Proof.
  intros Ht Hn Hc. rewrite discovered_concat.
  apply list_elem_of_join. exists (Pg.columns t). split; [done|].
  apply list_elem_of_fmap_2. by apply list_elem_of_filter.
Qed.

Lemma discovered_nil db tn t :
  discovered db tn = [] → t ∈ Pg.tables db → Pg.table_name t = tn →
  Pg.columns t = [].
Proof.
  intros Hd Ht Hn. destruct (Pg.columns t) as [|c cs] eqn:E; [done|].
  assert (c ∈ discovered db tn) as Hc.
  { apply (discovered_contains db tn t); [done..|]. rewrite E. left. }
  rewrite Hd in Hc. by apply elem_of_nil in Hc.
Qed.

End Source.

(** ** The destination store *)

Section Destination.

Lemma max_of_nil zs : max_of zs = None ↔ zs = [].
Proof. destruct zs; simpl; split; done. Qed.

Lemma max_of_Some zs m :
  max_of zs = Some m ↔ m ∈ zs ∧ Forall (λ z, z ≤ m) zs.
Proof.
  revert m. induction zs as [|z zs IH]; intros m; simpl.
  - split; [done | intros [H%elem_of_nil _]; done].
  - destruct (max_of zs) as [m'|] eqn:Hm.
    + destruct (proj1 (IH m') eq_refl) as [Hin Hle]. split.
      * intros [= <-]. split.
        -- destruct (Z.max_spec z m') as [[_ ->]|[_ ->]]; [by right | left].
        -- constructor; [apply Z.le_max_l|]. eapply Forall_impl; [exact Hle|].
           simpl. intros x Hx. etrans; [exact Hx | apply Z.le_max_r].
      * intros [Hm' Hall]. f_equal. inversion Hall as [|? ? Hz Hzs]; subst.
        apply elem_of_cons in Hm' as [->|Hm'].
        -- rewrite Forall_forall in Hzs. specialize (Hzs _ Hin). lia.
        -- rewrite Forall_forall in Hle, Hzs.
           specialize (Hle _ Hm'). specialize (Hzs _ Hin). lia.
    + apply max_of_nil in Hm as ->. split.
      * intros [= <-]. split; [left | by constructor].
      * intros [[->|H%elem_of_nil]%elem_of_cons _]; done.
Qed.

Lemma max_agg_Ok c vs m :
  Sf.max_agg c vs = Ok m →
  Forall (λ v, ¬ is_text v) vs ∧ m = max_of (ints vs).
Proof.
  revert m. induction vs as [|v vs IH]; intros m; simpl.
  - intros [= <-]. done.
  - destruct (Sf.max_agg c vs) as [m'|e]; [|done].
    destruct (IH _ eq_refl) as [Hall ->].
    destruct v as [|z|s]; intros [= <-];
      (split; [constructor; [by intros [] | done] | done]).
Qed.

Lemma max_agg_total c vs :
  Forall (λ v, ¬ is_text v) vs → Sf.max_agg c vs = Ok (max_of (ints vs)).
Proof.
  induction 1 as [|v vs Hv _ IH]; simpl; [done|].
  rewrite IH. destruct v as [|z|s]; [done | done | by destruct Hv].
Qed.

Lemma ints_app vs1 vs2 : ints (vs1 ++ vs2) = ints vs1 ++ ints vs2.
Proof. apply omap_app. Qed.

Lemma add_rows_add_rows rs1 rs2 t :
  Sf.add_rows rs2 (Sf.add_rows rs1 t) = Sf.add_rows (rs1 ++ rs2) t.
Proof. unfold Sf.add_rows. simpl. by rewrite app_assoc. Qed.

Lemma add_rows_nil t : Sf.add_rows [] t = t.
Proof. destruct t. unfold Sf.add_rows. simpl. by rewrite app_nil_r. Qed.

Lemma appended_nil tn (db : gmap string Sf.table) : appended tn [] db = db.
Proof.
  unfold appended. destruct (db !! tn) as [t|] eqn:Ht; [|done].
  rewrite add_rows_nil. by apply insert_id.
Qed.

Lemma appended_lookup tn rs (db : gmap string Sf.table) :
  appended tn rs db !! tn = Sf.add_rows rs <$> db !! tn.
Proof.
  unfold appended. destruct (db !! tn) as [t|] eqn:Ht; simpl.
  - by rewrite lookup_insert_eq.
  - by rewrite Ht.
Qed.

Lemma appended_lookup_ne tn tn' rs (db : gmap string Sf.table) :
  tn ≠ tn' → appended tn rs db !! tn' = db !! tn'.
Proof.
  intros Hne. unfold appended. destruct (db !! tn) as [t|]; [|done].
  by rewrite lookup_insert_ne.
Qed.

Lemma appended_appended tn rs1 rs2 (db : gmap string Sf.table) :
  appended tn rs2 (appended tn rs1 db) = appended tn (rs1 ++ rs2) db.
Proof.
  unfold appended at 1. rewrite appended_lookup. unfold appended.
  destruct (db !! tn) as [t|] eqn:Ht; simpl; [|done].
  by rewrite insert_insert_eq, add_rows_add_rows.
Qed.

Lemma insert_Ok (db : gmap string Sf.table) tn cols n params db' :
  Sf.insert db tn cols n params = Ok db' →
  ∃ t r, db !! tn = Some t
         ∧ Sf.check_row (Sf.columns t) cols n params = Ok r
         ∧ db' = appended tn [r] db.
Proof.
  unfold Sf.insert, appended. destruct (db !! tn) as [t|]; [|done].
  destruct (Sf.check_row _ _ _ _) as [r|e] eqn:Hc; [|done].
  intros [= <-]. by exists t, r.
Qed.

Lemma duplicate_column_None cols :
  Sf.duplicate_column cols = None ↔ NoDup cols.
Proof.
  induction cols as [|c cols IH]; simpl.
  - split; [constructor | done].
  - rewrite NoDup_cons. case_bool_decide as Hc.
    + split; [done | intros [? _]; done].
    + rewrite IH. tauto.
Qed.

(** What an accepted row tells about the statement and the stored row. *)
Lemma check_row_Ok cs cols n params r :
  Sf.check_row cs cols n params = Ok r →
  n = length params ∧ cols ≠ []
  ∧ (∀ c, c ∈ cols → c ∈ Sf.column_name <$> cs)
  ∧ NoDup cols
  ∧ r = Sf.stored_row cols params cs.
Proof.
  unfold Sf.check_row. case_bool_decide as Hn; simpl; [|done].
  case_bool_decide as Hcols; [done|].
  destruct (Sf.unknown_column cols cs) as [c|] eqn:Hu; [done|].
  destruct (Sf.duplicate_column cols) as [c|] eqn:Hd; [done|].
  destruct (Sf.null_violation _ _) as [c|]; [done|].
  intros [= <-]. split; [done|]. split; [done|]. split; [|split; [|done]].
  - intros c Hc. apply find_None_Forall in Hu.
    rewrite Forall_forall in Hu. specialize (Hu c Hc).
    apply bool_decide_eq_false in Hu. by apply dec_stable.
  - by apply duplicate_column_None.
Qed.

(** The cell of a stored row under column [c] is the parameter bound at
    the position of [c] in the column list. *)
Lemma stored_row_field cs cols params c :
  c ∈ Sf.column_name <$> cs →
  field (Sf.column_name <$> cs) c (Sf.stored_row cols params cs)
  = field cols c params.
Proof.
  intros Hc. unfold Sf.stored_row.
  rewrite (list_fmap_compose Sf.column_name (λ c, field cols c params)).
  by rewrite (field_fmap (λ c, field cols c params)).
Qed.

End Destination.

(** ** Runs of the tasks *)

Section Runs.

Lemma select_max_Ok (db : gmap string Sf.table) c tn m :
  Sf.select_max db c tn = Ok m →
  ∃ t, db !! tn = Some t ∧ c ∈ Sf.names t
       ∧ Forall (λ v, ¬ is_text v) (Sf.column_cells t c)
       ∧ m = max_of (ints (Sf.column_cells t c)).
Proof.
  unfold Sf.select_max. destruct (db !! tn) as [t|]; [|done].
  case_bool_decide as Hc; [done|]. intros [Hall ->]%max_agg_Ok.
  exists t. split; [done|]. split; [done|]. by split.
Qed.

Lemma select_max_total (db : gmap string Sf.table) c tn t :
  db !! tn = Some t → c ∈ Sf.names t →
  Forall (λ v, ¬ is_text v) (Sf.column_cells t c) →
  Sf.select_max db c tn = Ok (max_of (ints (Sf.column_cells t c))).
Proof.
  intros Ht Hc Hall. unfold Sf.select_max. rewrite Ht.
  rewrite bool_decide_eq_false_2 by (intros Hn; by apply Hn).
  by apply max_agg_total.
Qed.

Lemma get_max_primary_key_run tn w :
  get_max_primary_key tn w
  = (match Sf.select_max (sf w) (primary_key tn) tn with
     | Ok m => Ok (default 0 m)
     | Err e => Err e
     end,
     log_sf (SelectMax (primary_key tn) tn) [] w).
Proof.
  unfold get_max_primary_key, bind, sf_execute_fetchone0, ret, primary_key.
  by destruct (Sf.select_max _ _ _) as [[m|]|e].
Qed.

(** The task returns [m] exactly when the destination has the table, the
    table has the key column with no text in it, and [m] is the
    watermark of the table. *)
Lemma get_max_primary_key_Ok tn w m :
  (get_max_primary_key tn w).1 = Ok m ↔
  ∃ t, sf w !! tn = Some t ∧ primary_key tn ∈ Sf.names t
       ∧ Forall (λ v, ¬ is_text v) (Sf.column_cells t (primary_key tn))
       ∧ m = watermark t (primary_key tn).
Proof.
  rewrite get_max_primary_key_run. simpl. split.
  - destruct (Sf.select_max _ _ _) as [o|e] eqn:Hs; [|done].
    intros [= <-]. apply select_max_Ok in Hs as (t & Ht & Hc & Hall & ->).
    by exists t.
  - intros (t & Ht & Hc & Hall & ->).
    by rewrite (select_max_total _ _ _ t).
Qed.

Lemma select_where_gt_Ok db proj tn key bound out :
  Pg.select_where_gt db proj tn key bound = Ok out →
  ∃ t, Pg.resolve db tn = Some t ∧ key ∈ Pg.columns t
       ∧ (∀ c, c ∈ proj → c ∈ Pg.columns t)
       ∧ Forall (λ r, ¬ is_text (field (Pg.columns t) key r)) (Pg.rows t)
       ∧ out = Pg.project (Pg.columns t) proj
                 <$> filter (λ r, key_above bound (field (Pg.columns t) key r))
                            (Pg.rows t).
Proof.
  unfold Pg.select_where_gt. destruct (Pg.resolve db tn) as [t|]; [|done].
  case_bool_decide as Hk; [done|].
  destruct (Pg.unknown_column _ _) as [c|] eqn:Hu; [done|].
  intros [Hall ->]%scan_Ok. exists t.
  split; [done|]. split; [done|]. split; [|done].
  intros c Hc. apply find_None_Forall in Hu. rewrite Forall_forall in Hu.
  specialize (Hu c Hc). apply bool_decide_eq_false in Hu.
  by apply dec_stable.
Qed.

Lemma select_where_gt_total db proj tn key bound t :
  Pg.resolve db tn = Some t → key ∈ Pg.columns t →
  (∀ c, c ∈ proj → c ∈ Pg.columns t) →
  Forall (λ r, ¬ is_text (field (Pg.columns t) key r)) (Pg.rows t) →
  Pg.select_where_gt db proj tn key bound
  = Ok (Pg.project (Pg.columns t) proj
          <$> filter (λ r, key_above bound (field (Pg.columns t) key r))
                     (Pg.rows t)).
Proof.
  intros Ht Hk Hproj Hall. unfold Pg.select_where_gt. rewrite Ht.
  rewrite bool_decide_eq_false_2 by (intros Hn; by apply Hn).
  assert (Pg.unknown_column proj (Pg.columns t) = None) as ->.
  { apply find_None_Forall, Forall_forall. intros c Hc.
    apply bool_decide_eq_false_2. intros Hn. by apply Hn, Hproj. }
  by apply scan_total.
Qed.

Lemma extract_run tn bound w :
  extract tn bound w
  = (match Pg.select_where_gt (pg w) (discovered (pg w) tn) tn
             (primary_key tn) bound with
     | Ok rows => Ok (discovered (pg w) tn, rows)
     | Err e => Err e
     end,
     log_pg (SelectWhereGt (discovered (pg w) tn) tn (primary_key tn) bound)
       (log_pg (SelectColumnNames tn) w)).
Proof.
  unfold extract, bind, pg_execute_fetchall, ret, primary_key, discovered.
  simpl. by destruct (Pg.select_where_gt _ _ _ _ _).
Qed.

(** The insertion loop: it executes the statement on a prefix [done] of
    the rows, in order, each once; the rows it stored are appended to
    the table; it stops at the first row the store refuses, which is an
    executed statement as well. *)
Lemma insert_rows_run tn cols n rows w res w' :
  insert_rows (InsertValues tn cols n) rows w = (res, w') →
  ∃ done rest stored,
    rows = done ++ rest
    ∧ pg w' = pg w ∧ pg_log w' = pg_log w
    ∧ sf_log w' = sf_log w
        ++ ((λ r, (InsertValues tn cols n, r)) <$> (done ++ take 1 rest))
    ∧ sf w' = appended tn stored (sf w)
    ∧ Forall2 (λ p r, ∃ t, sf w !! tn = Some t
                 ∧ Sf.check_row (Sf.columns t) cols n p = Ok r) done stored
    ∧ match res with
      | Ok _ => rest = []
      | Err e => ∃ p rest', rest = p :: rest'
                   ∧ Sf.insert (sf w') tn cols n p = Err e
      end.
Proof.
  revert w. induction rows as [|p rows IH]; intros w; simpl.
  - intros [= <- <-]. exists [], [], []. simpl.
    rewrite app_nil_r, appended_nil. by repeat split.
  - unfold bind, sf_execute at 1.
    destruct (Sf.insert (sf w) tn cols n p) as [db|e] eqn:Hi.
    + intros Hrun. apply IH in Hrun
        as (done & rest & stored & -> & Hpg & Hpl & Hsl & Hsf & Hall & Hres).
      simpl in *. apply insert_Ok in Hi as (t & r & Ht & Hc & ->).
      exists (p :: done), rest, (r :: stored).
      split; [done|]. split; [done|]. split; [done|].
      split; [by rewrite Hsl, <- app_assoc|].
      split; [by rewrite Hsf, appended_appended|].
      split; [|done]. constructor; [by exists t|].
      eapply Forall2_impl; [exact Hall|]. simpl.
      intros p' r' (t' & Ht' & Hc'). rewrite appended_lookup, Ht in Ht'.
      simpl in Ht'. injection Ht' as <-. by exists t.
    + intros [= <- <-]. exists [], (p :: rows), []. simpl.
      rewrite appended_nil. repeat split; try done. by exists p, rows.
Qed.

End Runs.

Section Load.

(** What a successful extraction tells. *)
Lemma extract_Ok tn bound w cols rows w1 :
  extract tn bound w = (Ok (cols, rows), w1) →
  cols = discovered (pg w) tn
  ∧ w1 = log_pg (SelectWhereGt cols tn (primary_key tn) bound)
           (log_pg (SelectColumnNames tn) w)
  ∧ ∃ t, Pg.resolve (pg w) tn = Some t
      ∧ primary_key tn ∈ Pg.columns t
      ∧ primary_key tn ∈ cols
      ∧ (∀ c, c ∈ cols → c ∈ Pg.columns t)
      ∧ Forall (λ r, ¬ is_text (field (Pg.columns t) (primary_key tn) r))
               (Pg.rows t)
      ∧ rows = Pg.project (Pg.columns t) cols
                 <$> filter (λ r, key_above bound
                                    (field (Pg.columns t) (primary_key tn) r))
                            (Pg.rows t).
Proof.
  rewrite extract_run.
  destruct (Pg.select_where_gt _ _ _ _ _) as [out|e] eqn:Hs; [|done].
  intros [= <- <- <-]. split; [done|]. split; [done|].
  apply select_where_gt_Ok in Hs as (t & Ht & Hk & Hproj & Hall & ->).
  exists t. split; [done|]. split; [done|]. split; [|done].
  apply resolve_in_Some in Ht as [Hin Hn].
  by apply (discovered_contains _ _ t).
Qed.

(** A failed extraction ends the task before any statement reaches the
    destination. *)
Lemma load_extract_Err tn bound w e w1 :
  extract tn bound w = (Err e, w1) →
  load_incremental_data tn bound w = (Err e, w1)
  ∧ sf w1 = sf w ∧ sf_log w1 = sf_log w.
Proof.
  intros He. unfold load_incremental_data, bind. rewrite He.
  split; [done|]. rewrite extract_run in He.
  by injection He as _ <-.
Qed.

Lemma load_run tn bound w cols rows w1 :
  extract tn bound w = (Ok (cols, rows), w1) →
  ∃ done rest stored,
    rows = done ++ rest
    ∧ pg (load_incremental_data tn bound w).2 = pg w
    ∧ pg_log (load_incremental_data tn bound w).2 = pg_log w1
    ∧ sf_log (load_incremental_data tn bound w).2
      = sf_log w ++ ((λ r, (InsertValues tn cols (length cols), r))
                       <$> (done ++ take 1 rest))
    ∧ sf (load_incremental_data tn bound w).2 = appended tn stored (sf w)
    ∧ Forall2 (λ p r, ∃ t, sf w !! tn = Some t
                 ∧ Sf.check_row (Sf.columns t) cols (length cols) p = Ok r)
              done stored
    ∧ match (load_incremental_data tn bound w).1 with
      | Ok _ => rest = []
      | Err e =>
          ∃ p rest', rest = p :: rest'
            ∧ Sf.insert (sf (load_incremental_data tn bound w).2) tn cols
                        (length cols) p = Err e
      end.
Proof.
  intros He. unfold load_incremental_data, bind. rewrite He. simpl.
  apply extract_Ok in He as (_ & -> & _).
  destruct (insert_rows _ rows _) as [res w'] eqn:Hrun.
  apply insert_rows_run in Hrun
    as (done & rest & stored & ? & ? & ? & ? & ? & ? & ?).
  by exists done, rest, stored.
Qed.

(** A stored row holds, under each listed column, the cell the source
    row has under the column of the same name. *)
Lemma stored_field srccols cs cols n x r c :
  Sf.check_row cs cols n (Pg.project srccols cols x) = Ok r →
  c ∈ cols →
  field (Sf.column_name <$> cs) c r = field srccols c x.
Proof.
  intros (_ & _ & Hsub & _ & ->)%check_row_Ok Hc.
  rewrite stored_row_field by by apply Hsub.
  unfold Pg.project. by rewrite (field_fmap (λ c, field srccols c x)).
Qed.

End Load.

Section Watermark.

Lemma filter_none {A} (P : A → Prop) `{∀ x, Decision (P x)} (l : list A) :
  Forall (λ x, ¬ P x) l → filter P l = [].
Proof.
  induction 1 as [|x l Hx _ IH]; [done|]. by rewrite filter_cons_False.
Qed.

(** Each extracted row carries, under the key column, a key above the
    bound. *)
Lemma extracted_keys_above tn bound w cols rows w1 :
  extract tn bound w = (Ok (cols, rows), w1) →
  Forall (λ x, key_above bound (field cols (primary_key tn) x)) rows.
Proof.
  intros (_ & _ & t & Ht & Hk & Hkc & Hsub & Hall & ->)%extract_Ok.
  apply Forall_fmap, Forall_forall.
  intros r [Hr _]%list_elem_of_filter. simpl. unfold Pg.project.
  by rewrite (field_fmap (λ c, field (Pg.columns t) c r)).
Qed.

Lemma key_above_int bound v :
  key_above bound v → ∃ z, v = VInt z ∧ bound < z.
Proof. destruct v as [|z|s]; simpl; [done | by exists z | done]. Qed.

Lemma keys_above_ints bound (vs : list value) :
  Forall (key_above bound) vs →
  Forall (λ v, ¬ is_text v) vs ∧ Forall (λ z, bound < z) (ints vs).
Proof.
  induction 1 as [|v vs Hv _ [IH1 IH2]]; [done|].
  apply key_above_int in Hv as (z & -> & Hz). split.
  - constructor; [by intros []|done].
  - unfold ints. simpl. by constructor.
Qed.

Lemma column_cells_add_rows rs t c :
  Sf.column_cells (Sf.add_rows rs t) c
  = Sf.column_cells t c ++ (field (Sf.names t) c <$> rs).
Proof. unfold Sf.column_cells, Sf.add_rows, Sf.names. simpl. apply fmap_app. Qed.

(** The watermark does not go down when keys above it are added. *)
Lemma max_of_grows old new m0 :
  m0 = default 0 (max_of old) → Forall (λ z, m0 < z) new →
  m0 ≤ default 0 (max_of (old ++ new)).
Proof.
  intros Hm0 Hnew. destruct (max_of (old ++ new)) as [m|] eqn:Hm; simpl.
  - apply max_of_Some in Hm as [Hin Hle]. rewrite Forall_forall in Hle.
    destruct (max_of old) as [m'|] eqn:Hold; simpl in Hm0; subst m0.
    + apply max_of_Some in Hold as [Hin' _].
      apply Hle, elem_of_app. by left.
    + apply max_of_nil in Hold as ->. simpl in Hin.
      rewrite Forall_forall in Hnew. specialize (Hnew _ Hin). lia.
  - apply max_of_nil, app_eq_nil in Hm as [-> ->]. by subst m0.
Qed.

Lemma max_of_covers old new z :
  z ∈ new → z ≤ default 0 (max_of (old ++ new)).
Proof.
  intros Hz. destruct (max_of (old ++ new)) as [m|] eqn:Hm; simpl.
  - apply max_of_Some in Hm as [_ Hle]. rewrite Forall_forall in Hle.
    apply Hle, elem_of_app. by right.
  - apply max_of_nil, app_eq_nil in Hm as [_ ->]. by apply elem_of_nil in Hz.
Qed.

Lemma get_max_primary_key_sf tn w w' :
  sf w = sf w' → (get_max_primary_key tn w).1 = (get_max_primary_key tn w').1.
Proof. intros Hsf. rewrite !get_max_primary_key_run. simpl. by rewrite Hsf. Qed.

(** Rows stored on top of a table that has the key column: the table
    then holds the old key cells followed by the keys of the stored rows,
    and the watermark read from it is the largest of them all. *)
Lemma stored_watermark tn bound cols n (db : gmap string Sf.table) w' dt
    done stored :
  db !! tn = Some dt →
  primary_key tn ∈ Sf.names dt →
  Forall (λ v, ¬ is_text v) (Sf.column_cells dt (primary_key tn)) →
  Forall2 (λ p r, ∃ t, db !! tn = Some t
             ∧ Sf.check_row (Sf.columns t) cols n p = Ok r) done stored →
  Forall (λ x, key_above bound (field cols (primary_key tn) x)) done →
  sf w' = appended tn stored db →
  stored = (λ p, Sf.stored_row cols p (Sf.columns dt)) <$> done
  ∧ sf w' = <[tn := Sf.add_rows stored dt]> db
  ∧ Sf.column_cells (Sf.add_rows stored dt) (primary_key tn)
    = Sf.column_cells dt (primary_key tn)
        ++ (field cols (primary_key tn) <$> done)
  ∧ (get_max_primary_key tn w').1
    = Ok (default 0
            (max_of (ints (Sf.column_cells dt (primary_key tn))
                       ++ ints (field cols (primary_key tn) <$> done)))).
Proof.
  intros Hdt Hk Hold Hall Habove Hsf.
  assert (Hstored : stored = (λ p, Sf.stored_row cols p (Sf.columns dt)) <$> done).
  { clear -Hall Hdt. induction Hall as [|p r ps rs (t & Ht & Hc) _ IH]; [done|].
    rewrite Ht in Hdt. injection Hdt as ->.
    apply check_row_Ok in Hc as (_ & _ & _ & _ & ->). simpl. by f_equal. }
  assert (Hcells : field (Sf.names dt) (primary_key tn) <$> stored
                   = field cols (primary_key tn) <$> done).
  { rewrite Hstored, <- list_fmap_compose. apply list_fmap_ext.
    intros i p _. simpl. by apply stored_row_field. }
  assert (Hcc : Sf.column_cells (Sf.add_rows stored dt) (primary_key tn)
                = Sf.column_cells dt (primary_key tn)
                  ++ (field cols (primary_key tn) <$> done))
    by (by rewrite column_cells_add_rows, Hcells).
  split; [done|].
  split; [by rewrite Hsf; unfold appended; rewrite Hdt|].
  split; [done|].
  apply Forall_fmap in Habove. apply keys_above_ints in Habove as [Hnt _].
  replace (Ok _) with
    (Ok (A:=Z) (watermark (Sf.add_rows stored dt) (primary_key tn)))
    by (unfold watermark; by rewrite Hcc, ints_app).
  apply get_max_primary_key_Ok. exists (Sf.add_rows stored dt).
  split; [by rewrite Hsf, appended_lookup, Hdt|]. split; [done|].
  split; [|done]. rewrite Hcc. by apply Forall_app.
Qed.

(** The destination after a load, and the watermark it then has: the
    stored rows are a prefix of the batch, all of it when the task
    succeeds. *)
Lemma load_watermark tn bound w cols rows w1 dt :
  extract tn bound w = (Ok (cols, rows), w1) →
  sf w !! tn = Some dt →
  primary_key tn ∈ Sf.names dt →
  Forall (λ v, ¬ is_text v) (Sf.column_cells dt (primary_key tn)) →
  ∃ k,
    (k ≤ length rows)%nat
    ∧ (is_ok (load_incremental_data tn bound w).1 = true → k = length rows)
    ∧ sf (load_incremental_data tn bound w).2
      = <[tn := Sf.add_rows ((λ p, Sf.stored_row cols p (Sf.columns dt))
                               <$> take k rows) dt]> (sf w)
    ∧ (get_max_primary_key tn (load_incremental_data tn bound w).2).1
      = Ok (default 0
              (max_of (ints (Sf.column_cells dt (primary_key tn))
                         ++ ints (field cols (primary_key tn)
                                    <$> take k rows)))).
Proof.
  intros He Hdt Hk Hold.
  pose proof (extracted_keys_above _ _ _ _ _ _ He) as Habove.
  destruct (load_run _ _ _ _ _ _ He)
    as (done & rest & stored & -> & _ & _ & _ & Hsf & Hall & Hres).
  apply Forall_app in Habove as [Hdone _].
  destruct (stored_watermark _ _ _ _ _ _ _ _ _ Hdt Hk Hold Hall Hdone Hsf)
    as (-> & Hsf' & _ & Hmax).
  exists (length done). rewrite take_app_length.
  split; [rewrite length_app; lia|]. split; [|done].
  destruct (load_incremental_data tn bound w).1; [|done].
  intros _. subst rest. by rewrite app_nil_r.
Qed.

Lemma pipeline_run tn w :
  pipeline tn w
  = match Sf.select_max (sf w) (primary_key tn) tn with
    | Ok m =>
        load_incremental_data tn (default 0 m)
          (log_sf (SelectMax (primary_key tn) tn) [] w)
    | Err e => (Err e, log_sf (SelectMax (primary_key tn) tn) [] w)
    end.
Proof.
  unfold pipeline, bind. rewrite get_max_primary_key_run.
  by destruct (Sf.select_max _ _ _).
Qed.

Lemma ascending_app zs1 zs2 a b :
  ascending (zs1 ++ zs2) → a ∈ zs1 → b ∈ zs2 → a < b.
Proof.
  induction zs1 as [|z zs1 IH]; simpl; [by intros _ ?%elem_of_nil|].
  intros [Hall Hasc] [->|Ha]%elem_of_cons Hb.
  - rewrite Forall_forall in Hall. apply Hall, elem_of_app. by right.
  - by apply IH.
Qed.

End Watermark.

Section Pipeline.

Lemma pipeline_pg tn w : pg (pipeline tn w).2 = pg w.
Proof.
  rewrite pipeline_run. destruct (Sf.select_max _ _ _) as [m|e]; [|done].
  destruct (extract tn (default 0 m) (log_sf (SelectMax (primary_key tn) tn) [] w))
    as [[[cols rows]|e] w1] eqn:He.
  - by destruct (load_run _ _ _ _ _ _ He) as (_ & _ & _ & _ & -> & _).
  - destruct (load_extract_Err _ _ _ _ _ He) as (-> & _).
    rewrite extract_run in He. by injection He as _ <-.
Qed.

(** A pipeline only appends rows, and only to its own table. *)
Lemma pipeline_sf tn w :
  ∃ stored, sf (pipeline tn w).2 = appended tn stored (sf w).
Proof.
  rewrite pipeline_run. destruct (Sf.select_max _ _ _) as [m|e].
  - destruct (extract tn (default 0 m) (log_sf (SelectMax (primary_key tn) tn) [] w))
      as [[[cols rows]|e] w1] eqn:He.
    + destruct (load_run _ _ _ _ _ _ He)
        as (_ & _ & stored & _ & _ & _ & _ & Hsf & _).
      by exists stored.
    + destruct (load_extract_Err _ _ _ _ _ He) as (-> & Hsf & _).
      exists []. by rewrite appended_nil.
  - exists []. by rewrite appended_nil.
Qed.

Lemma get_max_primary_key_table tn w w' :
  sf w !! tn = sf w' !! tn →
  (get_max_primary_key tn w).1 = (get_max_primary_key tn w').1.
Proof.
  intros Hsf. rewrite !get_max_primary_key_run. simpl.
  unfold Sf.select_max. by rewrite Hsf.
Qed.

(** One run of the pipeline of a table does not lower its watermark. *)
Lemma pipeline_watermark_step tn w m0 :
  (get_max_primary_key tn w).1 = Ok m0 →
  ∃ m1, (get_max_primary_key tn (pipeline tn w).2).1 = Ok m1 ∧ m0 ≤ m1.
Proof.
  intros Hm0. pose proof Hm0 as Hget.
  apply get_max_primary_key_Ok in Hm0 as (dt & Hdt & Hk & Hold & Hw).
  rewrite get_max_primary_key_run in Hget. simpl in Hget.
  rewrite pipeline_run.
  destruct (Sf.select_max _ _ _) as [m|e]; [|done].
  injection Hget as Hget. rewrite Hget.
  set (wa := log_sf (SelectMax (primary_key tn) tn) [] w).
  destruct (extract tn m0 wa) as [[[cols rows]|e] w1] eqn:He.
  - destruct (load_watermark _ _ _ _ _ _ dt He Hdt Hk Hold)
      as (k & _ & _ & _ & Hmax).
    eexists. split; [exact Hmax|].
    apply max_of_grows; [done|].
    apply extracted_keys_above in He.
    apply (Forall_take _ k), Forall_fmap, keys_above_ints in He. by destruct He.
  - destruct (load_extract_Err _ _ _ _ _ He) as (-> & Hsf & _).
    exists m0. split; [|lia]. simpl.
    rewrite (get_max_primary_key_sf tn w1 w) by done.
    apply get_max_primary_key_Ok. by exists dt.
Qed.

(** Whatever is scheduled, on whatever table, the watermark of a table
    does not go down. *)
Lemma runs_watermark tn schedule w m0 :
  (get_max_primary_key tn w).1 = Ok m0 →
  ∃ m1, (get_max_primary_key tn (runs schedule w)).1 = Ok m1 ∧ m0 ≤ m1.
Proof.
  revert w m0. induction schedule as [|[tn' db] schedule IH]; intros w m0 Hm0.
  - exists m0. split; [done | lia].
  - simpl.
    assert (∃ m, (get_max_primary_key tn (pipeline tn' (set_pg db w)).2).1 = Ok m
                 ∧ m0 ≤ m) as (m & Hm & Hle).
    { destruct (decide (tn' = tn)) as [->|Hne].
      - apply pipeline_watermark_step.
        by rewrite (get_max_primary_key_sf tn _ w).
      - exists m0. split; [|lia].
        destruct (pipeline_sf tn' (set_pg db w)) as (stored & Hsf).
        rewrite (get_max_primary_key_table tn _ w); [done|].
        rewrite Hsf. by apply appended_lookup_ne. }
    destruct (IH _ _ Hm) as (m1 & Hm1 & Hle').
    exists m1. split; [done | lia].
Qed.

Lemma runs_app s1 s2 w : runs (s1 ++ s2) w = runs s2 (runs s1 w).
Proof.
  revert w. induction s1 as [|[tn db] s1 IH]; intros w; [done|].
  simpl. apply IH.
Qed.

End Pipeline.

(** ** The scenarios, run *)

Section Examples.

(** Destination keys 1..3, source keys 1..5: the watermark is 3 and the
    rows 4 and 5 are inserted. *)
Example estados_watermark :
  (get_max_primary_key "estados" Scenario.w0).1 = Ok 3.
Proof. reflexivity. Qed.

Example estados_first_run :
  (pipeline "estados" Scenario.w0).1 = Ok ()
  ∧ Sf.rows <$> (sf (pipeline "estados" Scenario.w0).2 !! "estados")
    = Some [Scenario.estado 1 "SP"; Scenario.estado 2 "RJ";
            Scenario.estado 3 "MG"; Scenario.estado 4 "PR";
            Scenario.estado 5 "BA"].
Proof. split; vm_compute; reflexivity. Qed.

Example estados_second_run :
  (get_max_primary_key "estados" (pipeline "estados" Scenario.w0).2).1 = Ok 5
  ∧ (extract "estados" 5 (pipeline "estados" Scenario.w0).2).1
    = Ok (["ID_estados"; "sigla"], []).
Proof. split; vm_compute; reflexivity. Qed.

(** The statements of a run, as text. *)
Example estados_statements :
  sql <$> pg_log (pipeline "estados" Scenario.w0).2
  = ["SELECT column_name FROM information_schema.columns WHERE table_name = 'estados'";
     "SELECT ID_estados, sigla FROM estados WHERE ID_estados > 3"]
  ∧ (λ qp, sql qp.1) <$> sf_log (pipeline "estados" Scenario.w0).2
    = ["SELECT MAX(ID_estados) FROM estados";
       "INSERT INTO estados (ID_estados, sigla) VALUES (%s, %s)";
       "INSERT INTO estados (ID_estados, sigla) VALUES (%s, %s)"].
Proof. split; vm_compute; reflexivity. Qed.

(** An empty destination table: the watermark is 0. *)
Example empty_table_watermark :
  (get_max_primary_key "vendedores" Partial.w0).1 = Ok 0.
Proof. reflexivity. Qed.

(** A destination without the table: the task fails. *)
Example missing_table_watermark :
  (get_max_primary_key "clientes" Scenario.w0).1
  = Err (UndefinedTable "clientes").
Proof. reflexivity. Qed.

(** Two schemas with a table of the same name: the column list holds the
    columns of both, and the insert statement names a column twice. *)
Example two_schemas_columns :
  discovered TwoSchemas.source "vendas"
  = ["ID_vendas"; "valor"; "ID_vendas"; "valor"].
Proof. reflexivity. Qed.

Example two_schemas_load :
  (load_incremental_data "vendas" 0 TwoSchemas.w0).1
  = Err (DuplicateColumn "ID_vendas").
Proof. vm_compute. reflexivity. Qed.

End Examples.

(** ** The claims *)

(** C1. On a source that resolves the table, with the key column in it,
    no text in the key column and every discovered column a column of the
    table, the extraction of [load_incremental_data] for table [tn] and
    watermark [bound] returns, and what it returns is the discovered
    column list and the rows of the source table whose [ID_<tn>] is above
    the watermark, each projected on that list, in table order: every
    extracted row has a key above the watermark, every source row with a
    key above the watermark is extracted, and no other row is. *)
Theorem extract_exact_delta tn bound w t :
  Pg.resolve (pg w) tn = Some t →
  primary_key tn ∈ Pg.columns t →
  (∀ c, c ∈ discovered (pg w) tn → c ∈ Pg.columns t) →
  Forall (λ r, ¬ is_text (field (Pg.columns t) (primary_key tn) r))
         (Pg.rows t) →
  ∃ rows,
    (extract tn bound w).1 = Ok (discovered (pg w) tn, rows)
    ∧ rows = Pg.project (Pg.columns t) (discovered (pg w) tn)
               <$> filter (λ r, key_above bound
                                  (field (Pg.columns t) (primary_key tn) r))
                          (Pg.rows t)
    ∧ (∀ x, x ∈ rows →
         key_above bound (field (discovered (pg w) tn) (primary_key tn) x))
    ∧ (∀ r, r ∈ Pg.rows t →
         key_above bound (field (Pg.columns t) (primary_key tn) r) →
         Pg.project (Pg.columns t) (discovered (pg w) tn) r ∈ rows)
    ∧ (∀ r, r ∈ Pg.rows t →
         ¬ key_above bound (field (Pg.columns t) (primary_key tn) r) →
         Pg.project (Pg.columns t) (discovered (pg w) tn) r ∉ rows).
Proof.
  intros Ht Hk Hsub Hall.
  assert (Hkc : primary_key tn ∈ discovered (pg w) tn).
  { apply resolve_in_Some in Ht as [Hin Hn].
    by apply (discovered_contains _ _ t). }
  assert (Hkey : ∀ r,
    field (discovered (pg w) tn) (primary_key tn)
          (Pg.project (Pg.columns t) (discovered (pg w) tn) r)
    = field (Pg.columns t) (primary_key tn) r).
  { intros r. unfold Pg.project.
    by rewrite (field_fmap (λ c, field (Pg.columns t) c r)). }
  eexists. split; [|split; [reflexivity|]].
  { rewrite extract_run. simpl.
    by rewrite (select_where_gt_total _ _ _ _ _ t). }
  split; [|split].
  - intros x (r & -> & [Hr _]%list_elem_of_filter)%list_elem_of_fmap.
    by rewrite Hkey.
  - intros r Hr Habove. apply list_elem_of_fmap_2.
    by apply list_elem_of_filter.
  - intros r Hr Hnot (r' & Heq & [Hr' _]%list_elem_of_filter)%list_elem_of_fmap.
    apply Hnot. rewrite <- Hkey, Heq, Hkey. done.
Qed.

Lemma extract_exact_delta_witness :
  (extract "estados" 3 Scenario.w0).1
  = Ok (["ID_estados"; "sigla"],
        [Scenario.estado 4 "PR"; Scenario.estado 5 "BA"]).
Proof.
  destruct (extract_exact_delta "estados" 3 Scenario.w0
              {| Pg.table_schema := "public"; Pg.table_name := "estados";
                 Pg.columns := ["ID_estados"; "sigla"];
                 Pg.rows := [Scenario.estado 1 "SP"; Scenario.estado 2 "RJ";
                             Scenario.estado 3 "MG"; Scenario.estado 4 "PR";
                             Scenario.estado 5 "BA"] |})
    as (rows & Hex & Hrows & _).
  - reflexivity.
  - apply (bool_decide_unpack _). vm_compute. reflexivity.
  - intros c Hc. exact Hc.
  - apply (bool_decide_unpack _). vm_compute. reflexivity.
  - rewrite Hrows in Hex. exact Hex.
Defined.

(** C2. On a destination table that has the key column, with no text in
    it, [get_max_primary_key] returns the largest [ID_<tn>] present in the
    table, and 0 when the table has no row (or no row with a key). *)
Theorem get_max_primary_key_max tn w t :
  sf w !! tn = Some t →
  primary_key tn ∈ Sf.names t →
  Forall (λ v, ¬ is_text v) (Sf.column_cells t (primary_key tn)) →
  ∃ m, (get_max_primary_key tn w).1 = Ok m
    ∧ (Sf.rows t = [] → m = 0)
    ∧ (ints (Sf.column_cells t (primary_key tn)) = [] → m = 0)
    ∧ (ints (Sf.column_cells t (primary_key tn)) ≠ [] →
         m ∈ ints (Sf.column_cells t (primary_key tn))
         ∧ ∀ k, k ∈ ints (Sf.column_cells t (primary_key tn)) → k ≤ m).
Proof.
  intros Ht Hk Hall. exists (watermark t (primary_key tn)).
  split; [apply get_max_primary_key_Ok; by exists t|].
  unfold watermark. split; [|split].
  - unfold Sf.column_cells. by intros ->.
  - by intros ->.
  - intros Hne. destruct (max_of _) as [m|] eqn:Hm.
    + apply max_of_Some in Hm as [Hin Hle]. simpl. split; [done|].
      by apply Forall_forall.
    + by apply max_of_nil in Hm.
Qed.

Lemma get_max_primary_key_max_witness :
  ∃ m, (get_max_primary_key "estados" Scenario.w0).1 = Ok m
    ∧ m ∈ [1; 2; 3] ∧ ∀ k, k ∈ [1; 2; 3] → k ≤ m.
Proof.
  destruct (get_max_primary_key_max "estados" Scenario.w0
              {| Sf.columns := Scenario.estados_columns;
                 Sf.rows := [Scenario.estado 1 "SP"; Scenario.estado 2 "RJ";
                             Scenario.estado 3 "MG"] |})
    as (m & Hm & _ & _ & Hmax).
  - reflexivity.
  - vm_compute. left.
  - repeat constructor; simpl; tauto.
  - exists m. split; [exact Hm|]. apply Hmax. discriminate.
Defined.

(** C3. Within one run of [load_incremental_data] the selection and the
    insert statement carry the same column list, names and order: the one
    discovered at the start.  Hence each stored row holds, under every
    listed column, the cell the source row has under the column of that
    name. *)
Theorem load_same_column_list tn bound w cols rows w1 :
  extract tn bound w = (Ok (cols, rows), w1) →
  pg_log (load_incremental_data tn bound w).2
  = pg_log w ++ [SelectColumnNames tn;
                 SelectWhereGt cols tn (primary_key tn) bound]
  ∧ (∀ q p, (q, p) ∈ drop (length (sf_log w))
                         (sf_log (load_incremental_data tn bound w).2) →
            q = InsertValues tn cols (length cols))
  ∧ sql (SelectWhereGt cols tn (primary_key tn) bound)
    = "SELECT " +:+ columns_list_str cols +:+ " FROM " +:+ tn
        +:+ " WHERE " +:+ primary_key tn +:+ " > " +:+ pretty bound
  ∧ sql (InsertValues tn cols (length cols))
    = "INSERT INTO " +:+ tn +:+ " (" +:+ columns_list_str cols
        +:+ ") VALUES (" +:+ placeholders (length cols) +:+ ")"
  ∧ ∃ src stored,
      Pg.resolve (pg w) tn = Some src
      ∧ sf (load_incremental_data tn bound w).2 = appended tn stored (sf w)
      ∧ Forall2
          (λ r s, ∀ dt c, sf w !! tn = Some dt → c ∈ cols →
                          field (Sf.names dt) c s = field (Pg.columns src) c r)
          (take (length stored)
             (filter (λ r, key_above bound
                             (field (Pg.columns src) (primary_key tn) r))
                     (Pg.rows src)))
          stored
      ∧ (is_ok (load_incremental_data tn bound w).1 = true →
           length stored = length rows).
Proof.
  intros He.
  destruct (load_run _ _ _ _ _ _ He)
    as (done & rest & stored & Hrows & _ & Hpl & Hsl & Hsf & Hall & Hres).
  apply extract_Ok in He as (_ & -> & src & Hsrc & _ & _ & _ & _ & Hsel).
  split; [by rewrite Hpl; simpl; rewrite <- app_assoc|].
  split.
  { intros q p. rewrite Hsl, drop_app_length.
    intros (r & [= -> _] & _)%list_elem_of_fmap. done. }
  split; [done|]. split; [done|].
  exists src, stored. split; [done|]. split; [done|].
  pose proof (Forall2_length _ _ _ Hall) as Hlen.
  rewrite Hrows in Hsel. symmetry in Hsel.
  apply fmap_app_inv in Hsel as (sel1 & sel2 & -> & -> & ->).
  rewrite length_fmap in Hlen. rewrite take_app_length' by done.
  split.
  - apply Forall2_fmap_l in Hall. eapply Forall2_impl; [exact Hall|].
    simpl. intros r s (t & Ht & Hc) dt c Hdt Hcin.
    rewrite Ht in Hdt. injection Hdt as <-. by eapply stored_field.
  - destruct (load_incremental_data tn bound w).1; [|done].
    intros _. rewrite Hrows, Hres, app_nil_r, length_fmap. lia.
Qed.

Lemma load_same_column_list_witness :
  sql (SelectWhereGt ["ID_estados"; "sigla"] "estados" "ID_estados" 3)
  = "SELECT ID_estados, sigla FROM estados WHERE ID_estados > 3"
  ∧ sql (InsertValues "estados" ["ID_estados"; "sigla"] 2)
    = "INSERT INTO estados (ID_estados, sigla) VALUES (%s, %s)".
Proof.
  destruct (load_same_column_list "estados" 3 Scenario.w0
              ["ID_estados"; "sigla"]
              [Scenario.estado 4 "PR"; Scenario.estado 5 "BA"]
              (extract "estados" 3 Scenario.w0).2)
    as (_ & _ & Hsel & Hins & _); [vm_compute; reflexivity|].
  split; [exact Hsel | exact Hins].
Defined.

(** C4. A load whose watermark no source key exceeds inserts nothing and
    is not an error; and after a pipeline run that succeeded, a second run
    on the same source succeeds, executes no insert and leaves the
    destination as the first run left it. *)
Theorem pipeline_second_run_noop tn w :
  (∀ bound cols rows w1 t,
     extract tn bound w = (Ok (cols, rows), w1) →
     Pg.resolve (pg w) tn = Some t →
     Forall (λ r, ¬ key_above bound (field (Pg.columns t) (primary_key tn) r))
            (Pg.rows t) →
     rows = []
     ∧ load_incremental_data tn bound w = (Ok (), w1)
     ∧ sf w1 = sf w ∧ sf_log w1 = sf_log w)
  ∧ ((pipeline tn w).1 = Ok () →
     pg (pipeline tn w).2 = pg w
     ∧ (pipeline tn (pipeline tn w).2).1 = Ok ()
     ∧ sf (pipeline tn (pipeline tn w).2).2 = sf (pipeline tn w).2
     ∧ sf_log (pipeline tn (pipeline tn w).2).2
       = sf_log (pipeline tn w).2 ++ [(SelectMax (primary_key tn) tn, [])]).
Proof.
  assert (Hnoop : ∀ bound w cols rows w1 t,
     extract tn bound w = (Ok (cols, rows), w1) →
     Pg.resolve (pg w) tn = Some t →
     Forall (λ r, ¬ key_above bound (field (Pg.columns t) (primary_key tn) r))
            (Pg.rows t) →
     rows = []
     ∧ load_incremental_data tn bound w = (Ok (), w1)
     ∧ sf w1 = sf w ∧ sf_log w1 = sf_log w).
  { intros bound w' cols rows w1 t He Ht Hall.
    pose proof He as Hx.
    apply extract_Ok in Hx as (_ & -> & t' & Ht' & _ & _ & _ & _ & ->).
    rewrite Ht in Ht'. injection Ht' as <-.
    rewrite (filter_none _ _ Hall). split; [done|].
    rewrite (filter_none _ _ Hall) in He.
    unfold load_incremental_data, bind. rewrite He. done. }
  split; [intros bound; apply (Hnoop bound w)|].
  intros Hok. split; [apply pipeline_pg|].
  rewrite pipeline_run in Hok.
  destruct (Sf.select_max (sf w) (primary_key tn) tn) as [m|e] eqn:Hsel; [|done].
  assert (Hget : (get_max_primary_key tn w).1 = Ok (default 0 m))
    by (by rewrite get_max_primary_key_run, Hsel).
  apply get_max_primary_key_Ok in Hget as (dt & Hdt & Hk & Hold & Hw).
  set (wa := log_sf (SelectMax (primary_key tn) tn) [] w) in *.
  destruct (extract tn (default 0 m) wa) as [[[cols rows]|e] wb] eqn:He;
    [|by destruct (load_extract_Err _ _ _ _ _ He) as (Hl & _); rewrite Hl in Hok].
  destruct (load_watermark _ _ _ _ _ _ dt He Hdt Hk Hold)
    as (k & _ & Hk' & _ & Hmax).
  rewrite Hok in Hk'. specialize (Hk' eq_refl). subst k.
  rewrite take_ge in Hmax by done.
  assert (Hpipe : pipeline tn w = load_incremental_data tn (default 0 m) wa)
    by (by rewrite pipeline_run, Hsel).
  rewrite Hpipe.
  set (w1 := (load_incremental_data tn (default 0 m) wa).2) in *.
  assert (Hpg : pg w1 = pg w).
  { unfold w1. by destruct (load_run _ _ _ _ _ _ He) as (_ & _ & _ & _ & -> & _). }
  rewrite pipeline_run.
  rewrite get_max_primary_key_run in Hmax. simpl in Hmax.
  destruct (Sf.select_max (sf w1) (primary_key tn) tn) as [m'|e]; [|done].
  injection Hmax as Hmax.
  set (w1a := log_sf (SelectMax (primary_key tn) tn) [] w1).
  pose proof He as Hx.
  apply extract_Ok in Hx as (Hcols & _ & t & Ht & Hkt & Hkc & Hsub & Hall & Hrows).
  change (pg wa) with (pg w) in Hcols, Ht.
  assert (Hnone : Forall (λ r, ¬ key_above (default 0 m')
                                  (field (Pg.columns t) (primary_key tn) r))
                         (Pg.rows t)).
  { apply Forall_forall. intros r Hr Habove.
    apply key_above_int in Habove as (z & Hz & Hlt).
    assert (z ≤ default 0 m'); [|lia]. rewrite Hmax.
    destruct (decide (default 0 m < z)) as [Hz0|Hz0].
    - apply max_of_covers, list_elem_of_omap. exists (VInt z).
      split; [|done]. rewrite Hrows, <- list_fmap_compose.
      apply list_elem_of_fmap. exists r. split.
      + simpl. unfold Pg.project.
        by rewrite (field_fmap (λ c, field (Pg.columns t) c r)).
      + apply list_elem_of_filter. split; [by rewrite Hz|done].
    - etrans; [|apply max_of_grows; [exact Hw|]]; [lia|].
      apply extracted_keys_above, Forall_fmap, keys_above_ints in He.
      by destruct He. }
  assert (He2 : extract tn (default 0 m') w1a
                = (Ok (cols, []),
                   log_pg (SelectWhereGt cols tn (primary_key tn) (default 0 m'))
                     (log_pg (SelectColumnNames tn) w1a))).
  { rewrite extract_run. simpl. rewrite Hpg, <- Hcols.
    rewrite (select_where_gt_total _ _ _ _ _ t); [|done..].
    by rewrite (filter_none _ _ Hnone). }
  destruct (Hnoop _ _ _ _ _ t He2) as (_ & -> & _); [by simpl; rewrite Hpg|done|].
  done.
Qed.

Lemma pipeline_second_run_noop_witness :
  (pipeline "estados" (pipeline "estados" Scenario.w0).2).1 = Ok ()
  ∧ sf (pipeline "estados" (pipeline "estados" Scenario.w0).2).2
    = sf (pipeline "estados" Scenario.w0).2.
Proof.
  destruct (pipeline_second_run_noop "estados" Scenario.w0) as [_ Htwice].
  destruct Htwice as (_ & Hok & Hsf & _); [vm_compute; reflexivity|].
  split; [exact Hok | exact Hsf].
Defined.

(** C5. The watermark [get_max_primary_key] returns for a table never goes
    down from one run to a later one: after any sequence of scheduled
    pipeline runs, on any tables and with the source in any state at each
    run, it is at least what it was, and it is again at least that after
    any further runs. *)
Theorem watermark_monotonic tn earlier later w m0 :
  (get_max_primary_key tn w).1 = Ok m0 →
  ∃ m1 m2,
    (get_max_primary_key tn (runs earlier w)).1 = Ok m1
    ∧ (get_max_primary_key tn (runs (earlier ++ later) w)).1 = Ok m2
    ∧ m0 ≤ m1 ∧ m1 ≤ m2.
Proof.
  intros Hm0.
  destruct (runs_watermark tn earlier w m0 Hm0) as (m1 & Hm1 & Hle1).
  destruct (runs_watermark tn later (runs earlier w) m1 Hm1) as (m2 & Hm2 & Hle2).
  exists m1, m2. by rewrite runs_app.
Qed.

Lemma watermark_monotonic_witness :
  ∃ m1 m2,
    (get_max_primary_key "estados"
       (runs [("estados", Scenario.source)] Scenario.w0)).1 = Ok m1
    ∧ (get_max_primary_key "estados"
         (runs ([("estados", Scenario.source)]
                  ++ [("vendedores", Partial.source);
                      ("estados", Scenario.source)]) Scenario.w0)).1 = Ok m2
    ∧ 3 ≤ m1 ∧ m1 ≤ m2.
Proof.
  apply (watermark_monotonic "estados" [("estados", Scenario.source)]
           [("vendedores", Partial.source); ("estados", Scenario.source)]
           Scenario.w0 3).
  vm_compute. reflexivity.
Defined.

(** C6. When column discovery returns no row, [load_incremental_data]
    ends with an error of the source store, and no statement reaches the
    destination. *)
Theorem load_fails_without_columns tn bound w :
  Pg.select_column_names (pg w) tn = [] →
  ∃ e, (load_incremental_data tn bound w).1 = Err e
    ∧ (e = UndefinedTable tn ∨ e = UndefinedColumn (primary_key tn))
    ∧ sf (load_incremental_data tn bound w).2 = sf w
    ∧ sf_log (load_incremental_data tn bound w).2 = sf_log w.
Proof.
  intros Hnil.
  assert (Hd : discovered (pg w) tn = []) by (unfold discovered; by rewrite Hnil).
  assert (He : ∃ e, (extract tn bound w).1 = Err e
                 ∧ (e = UndefinedTable tn ∨ e = UndefinedColumn (primary_key tn))).
  { rewrite extract_run. simpl. unfold Pg.select_where_gt.
    destruct (Pg.resolve (pg w) tn) as [t|] eqn:Ht; [|by eexists; eauto].
    apply resolve_in_Some in Ht as [Hin Hn].
    rewrite (discovered_nil _ _ _ Hd Hin Hn).
    rewrite bool_decide_eq_true_2 by apply not_elem_of_nil.
    eexists; eauto. }
  destruct He as (e & He & Hkind).
  destruct (extract tn bound w) as [res w1] eqn:Hx. simpl in He. subst res.
  destruct (load_extract_Err _ _ _ _ _ Hx) as (-> & Hsf & Hlog).
  by exists e.
Qed.

Lemma load_fails_without_columns_witness :
  Pg.select_column_names Scenario.source "clientes" = []
  ∧ ∃ e, (load_incremental_data "clientes" 0 Scenario.w0).1 = Err e.
Proof.
  split; [reflexivity|].
  destruct (load_fails_without_columns "clientes" 0 Scenario.w0)
    as (e & He & _); [reflexivity|].
  exists e. exact He.
Defined.

(** C7. Insertion is row at a time and nothing is undone: when the store
    refuses row [i] of the batch, the task ends with that error, the rows
    before it are stored in the destination table, after the rows it held,
    and stay there; a watermark read afterwards is at least the key of
    each of them.  The rows from [i] on are extracted again by the next
    run, on the same source, when the batch came in strictly ascending key
    order and the load ran on the watermark of the destination; the
    selection asks for no order, and without it a row not yet stored can
    lie at or below the new watermark. *)
Theorem load_partial_failure tn bound w cols rows w1 e :
  extract tn bound w = (Ok (cols, rows), w1) →
  (load_incremental_data tn bound w).1 = Err e →
  ∃ i p stored,
    rows !! i = Some p
    ∧ Sf.insert (sf (load_incremental_data tn bound w).2) tn cols
                (length cols) p = Err e
    ∧ length stored = i
    ∧ sf (load_incremental_data tn bound w).2 = appended tn stored (sf w)
    ∧ (∀ dt, sf w !! tn = Some dt →
         sf (load_incremental_data tn bound w).2 !! tn
         = Some {| Sf.columns := Sf.columns dt;
                   Sf.rows := Sf.rows dt ++ stored |}
         ∧ stored = (λ p, Sf.stored_row cols p (Sf.columns dt))
                      <$> take i rows)
    ∧ sf_log (load_incremental_data tn bound w).2
      = sf_log w ++ ((λ r, (InsertValues tn cols (length cols), r))
                       <$> take (S i) rows)
    ∧ (∀ m0, (get_max_primary_key tn w).1 = Ok m0 →
         ∃ m, (get_max_primary_key tn (load_incremental_data tn bound w).2).1
              = Ok m
           ∧ Forall (λ x, ∃ z, field cols (primary_key tn) x = VInt z ∧ z ≤ m)
                    (take i rows)
           ∧ (m0 ≤ bound →
              ascending (ints (field cols (primary_key tn) <$> rows)) →
              ∃ rows',
                (extract tn m (load_incremental_data tn bound w).2).1
                = Ok (cols, rows')
                ∧ ∀ x, x ∈ drop i rows → x ∈ rows')).
Proof.
  intros He Herr.
  pose proof (extracted_keys_above _ _ _ _ _ _ He) as Habove.
  destruct (load_run _ _ _ _ _ _ He)
    as (done & rest & stored & Hrows & Hpg & _ & Hsl & Hsf & Hall & Hres).
  rewrite Herr in Hres. destruct Hres as (p & rest' & -> & Hins).
  pose proof (Forall2_length _ _ _ Hall) as Hlen.
  pose proof Habove as Habove'. rewrite Hrows in Habove'.
  apply Forall_app in Habove' as [Hdone _].
  assert (Htake : take (length done) rows = done)
    by (by rewrite Hrows, take_app_length).
  assert (HtakeS : take (S (length done)) rows = done ++ [p]).
  { rewrite Hrows.
    replace (S (length done)) with (length done + 1)%nat by lia.
    by rewrite take_app_add'. }
  assert (Hdrop : drop (length done) rows = p :: rest')
    by (by rewrite Hrows, drop_app_length).
  exists (length done), p, stored. rewrite Htake, HtakeS, Hdrop.
  split; [by rewrite Hrows, list_lookup_middle|]. split; [done|].
  split; [done|]. split; [done|]. split; [|split].
  - intros dt Hdt. rewrite Hsf, appended_lookup, Hdt. split; [done|].
    clear -Hall Hdt. induction Hall as [|q r ps rs (t & Ht & Hc) _ IH]; [done|].
    rewrite Ht in Hdt. injection Hdt as ->.
    apply check_row_Ok in Hc as (_ & _ & _ & _ & ->). simpl. by f_equal.
  - by rewrite Hsl.
  - intros m0 Hm0.
    apply get_max_primary_key_Ok in Hm0 as (dt & Hdt & Hk & Hold & Hw).
    destruct (stored_watermark _ _ _ _ _ _ _ _ _ Hdt Hk Hold Hall Hdone Hsf)
      as (_ & _ & _ & Hmax).
    eexists. split; [exact Hmax|]. split.
    { apply Forall_forall. intros x Hx.
      rewrite Forall_forall in Hdone.
      destruct (key_above_int _ _ (Hdone x Hx)) as (z & Hz & _).
      exists z. split; [done|]. apply max_of_covers.
      apply list_elem_of_omap. exists (VInt z). split; [|done].
      rewrite <- Hz. by apply list_elem_of_fmap_2. }
    intros Hbound Hasc.
    apply extract_Ok in He
      as (Hcols & _ & t & Ht & Hkt & Hkc & Hsub & Hnt & Hsel).
    assert (Hkey : ∀ r, field cols (primary_key tn)
                          (Pg.project (Pg.columns t) cols r)
                        = field (Pg.columns t) (primary_key tn) r).
    { intros r. unfold Pg.project.
      by rewrite (field_fmap (λ c, field (Pg.columns t) c r)). }
    eexists. split.
    { rewrite extract_run. simpl. rewrite Hpg, <- Hcols.
      by rewrite (select_where_gt_total _ _ _ _ _ t). }
    intros x Hx.
    assert (x ∈ rows) as Hin by (rewrite Hrows; apply elem_of_app; by right).
    rewrite Hsel in Hin.
    apply list_elem_of_fmap in Hin as (r & -> & [Hr Hrt]%list_elem_of_filter).
    apply list_elem_of_fmap_2, list_elem_of_filter. split; [|done].
    apply key_above_int in Hr as (z & Hz & Hlt). rewrite Hz. simpl.
    rewrite Hrows, fmap_app, ints_app in Hasc.
    assert (Hzin : z ∈ ints (field cols (primary_key tn) <$> p :: rest')).
    { apply list_elem_of_omap. exists (VInt z). split; [|done].
      rewrite <- Hz, <- Hkey. by apply list_elem_of_fmap_2. }
    destruct (max_of _) as [mm|] eqn:Hmm; simpl.
    + apply max_of_Some in Hmm as [[Hold'|Hnew]%elem_of_app _].
      * unfold watermark in Hw.
        destruct (max_of (ints (Sf.column_cells dt (primary_key tn))))
          as [m'|] eqn:Hm'.
        -- apply max_of_Some in Hm' as [_ Hle]. rewrite Forall_forall in Hle.
           specialize (Hle _ Hold'). simpl in Hw. lia.
        -- apply max_of_nil in Hm'. rewrite Hm' in Hold'.
           by apply elem_of_nil in Hold'.
      * by apply (ascending_app _ _ _ _ Hasc).
    + apply max_of_nil, app_eq_nil in Hmm as [Hnil _].
      unfold watermark in Hw. rewrite Hnil in Hw. simpl in Hw. lia.
Qed.

Lemma load_partial_failure_witness :
  (load_incremental_data "vendedores" 0 Partial.w0).1
  = Err (NotNullViolation "nome")
  ∧ ∃ (i : nat) m rows',
      (get_max_primary_key "vendedores"
         (load_incremental_data "vendedores" 0 Partial.w0).2).1 = Ok m
      ∧ (extract "vendedores" m
           (load_incremental_data "vendedores" 0 Partial.w0).2).1
        = Ok (["ID_vendedores"; "nome"], rows')
      ∧ ∀ x, x ∈ drop i [[VInt 1; VText "Ana"]; [VInt 2; VNull];
                         [VInt 3; VText "Bia"]] → x ∈ rows'.
Proof.
  split; [vm_compute; reflexivity|].
  destruct (load_partial_failure "vendedores" 0 Partial.w0
              ["ID_vendedores"; "nome"]
              [[VInt 1; VText "Ana"]; [VInt 2; VNull]; [VInt 3; VText "Bia"]]
              (extract "vendedores" 0 Partial.w0).2
              (NotNullViolation "nome"))
    as (i & p & stored & _ & _ & _ & _ & _ & _ & Hwm);
    [vm_compute; reflexivity | vm_compute; reflexivity |].
  destruct (Hwm 0) as (m & Hm & _ & Hnext); [vm_compute; reflexivity|].
  destruct Hnext as (rows' & Hex & Hin).
  - lia.
  - apply (bool_decide_unpack _). vm_compute. reflexivity.
  - exists i, m, rows'. split; [exact Hm|]. split; [exact Hex | exact Hin].
Defined.

(** Delivery is not at least once.  The source returns the rows with keys
    3, 2, 1, and the destination refuses the row with key 2.  The run
    stores the row with key 3 and fails; the watermark is then 3, the next
    run extracts nothing and succeeds, and the row with key 1, which was in
    the batch of the failed run, is not in the destination. *)
Lemma at_least_once_counterexample :
  (extract "vendedores" 0 Unordered.w0).1
  = Ok (["ID_vendedores"; "nome"],
        [[VInt 3; VText "Caio"]; [VInt 2; VNull]; [VInt 1; VText "Ana"]])
  ∧ (pipeline "vendedores" Unordered.w0).1 = Err (NotNullViolation "nome")
  ∧ Sf.rows <$> sf (pipeline "vendedores" Unordered.w0).2 !! "vendedores"
    = Some [[VInt 3; VText "Caio"]]
  ∧ (get_max_primary_key "vendedores"
       (pipeline "vendedores" Unordered.w0).2).1 = Ok 3
  ∧ (extract "vendedores" 3 (pipeline "vendedores" Unordered.w0).2).1
    = Ok (["ID_vendedores"; "nome"], [])
  ∧ (pipeline "vendedores" (pipeline "vendedores" Unordered.w0).2).1 = Ok ()
  ∧ Sf.rows <$> sf (pipeline "vendedores"
                      (pipeline "vendedores" Unordered.w0).2).2 !! "vendedores"
    = Some [[VInt 3; VText "Caio"]]
  ∧ ¬ ([VInt 1; VText "Ana"] : row) ∈ [[VInt 3; VText "Caio"]].
Proof.
  repeat split; try (vm_compute; reflexivity).
  intros [Heq|Hin%elem_of_nil]%elem_of_cons; [discriminate Heq | done].
Qed.

(** C8. [get_max_primary_key] changes neither store: all it leaves behind
    is one executed statement, the aggregate selection, on the destination
    cursor. *)
Theorem get_max_primary_key_read_only tn w :
  pg (get_max_primary_key tn w).2 = pg w
  ∧ sf (get_max_primary_key tn w).2 = sf w
  ∧ pg_log (get_max_primary_key tn w).2 = pg_log w
  ∧ sf_log (get_max_primary_key tn w).2
    = sf_log w ++ [(SelectMax (primary_key tn) tn, [])].
Proof. by rewrite get_max_primary_key_run. Qed.



(** C10. Column discovery selects the catalog rows by table name alone:
    the statement names no schema and no order, the column list handed to
    the extraction is the concatenation, in catalog order, of the columns
    of every table of that name, and so holds the columns of each such
    table whatever its schema. *)
Theorem discovery_by_table_name_only tn bound w :
  sql (SelectColumnNames tn)
  = "SELECT column_name FROM information_schema.columns WHERE table_name = '"
      +:+ tn +:+ "'"
  ∧ discovered (pg w) tn
    = mjoin (Pg.columns
               <$> filter (λ t, Pg.table_name t = tn) (Pg.tables (pg w)))
  ∧ pg_log (load_incremental_data tn bound w).2
    = pg_log w ++ [SelectColumnNames tn;
                   SelectWhereGt (discovered (pg w) tn) tn
                                 (primary_key tn) bound]
  ∧ ∀ t c, t ∈ Pg.tables (pg w) → Pg.table_name t = tn →
           c ∈ Pg.columns t → c ∈ discovered (pg w) tn.
Proof.
  split; [done|]. split; [apply discovered_concat|]. split.
  - destruct (extract tn bound w) as [[[cols rows]|e] w1] eqn:He.
    + destruct (load_run _ _ _ _ _ _ He) as (_ & _ & _ & _ & _ & -> & _).
      apply extract_Ok in He as (-> & -> & _). simpl.
      by rewrite <- app_assoc.
    + destruct (load_extract_Err _ _ _ _ _ He) as (-> & _).
      rewrite extract_run in He. injection He as _ <-. simpl.
      by rewrite <- app_assoc.
  - intros t c. apply discovered_contains.
Qed.

(** ** Further properties of the tasks *)

(** X1. The task ids of the DAG are pairwise distinct whenever the table
    names are: two tables never share a task id, and the watermark task
    and the load task of any two tables have different ids. *)
Theorem dag_task_ids_distinct names :
  NoDup names →
  NoDup (dag_task_ids names)
  ∧ length (dag_task_ids names) = (2 * length names)%nat
  ∧ ∀ up down, (up, down) ∈ dag_edges names →
      up ∈ dag_task_ids names ∧ down ∈ dag_task_ids names ∧ up ≠ down.
Proof.
  intros Hnd. split; [|split].
  - induction Hnd as [|tn names Hnotin _ IH]; [constructor|].
    unfold dag_task_ids. rewrite bind_cons. simpl.
    apply NoDup_cons. split.
    + rewrite not_elem_of_cons. split; [done|].
      intros (tn' & Hin & Htn')%list_elem_of_bind.
      apply elem_of_cons in Hin as [Heq|Hin].
      * apply String.app_inj in Heq as ->. done.
      * apply elem_of_cons in Hin as [Heq|Hin]; [done|].
        by apply elem_of_nil in Hin.
    + apply NoDup_cons. split; [|exact IH].
      intros (tn' & Hin & Htn')%list_elem_of_bind.
      apply elem_of_cons in Hin as [Heq|Hin]; [done|].
      apply elem_of_cons in Hin as [Heq|Hin].
      * apply String.app_inj in Heq as ->. done.
      * by apply elem_of_nil in Hin.
  - clear Hnd. induction names as [|tn names IH]; [done|].
    unfold dag_task_ids in *. rewrite bind_cons. simpl. rewrite IH. lia.
  - intros up down (tn & [= -> ->] & Hin)%list_elem_of_fmap.
    split; [|split; [|done]].
    + apply list_elem_of_bind. exists tn. split; [left | done].
    + apply list_elem_of_bind. exists tn. split; [right; left | done].
Qed.

Lemma dag_task_ids_distinct_witness :
  NoDup (dag_task_ids table_names)
  ∧ length (dag_task_ids table_names) = 14%nat.
Proof.
  destruct (dag_task_ids_distinct table_names) as (Hnd & Hlen & _).
  - apply (bool_decide_unpack _). vm_compute. reflexivity.
  - split; [exact Hnd | exact Hlen].
Defined.

(** X2. The load task runs on the value the watermark task returned: when
    [get_max_primary_key] fails, the pipeline ends with its error and no
    statement reaches the source; when it returns [m], the selection sent
    to the source is the one with bound [m]. *)
Theorem pipeline_passes_watermark tn w :
  (∀ e, (get_max_primary_key tn w).1 = Err e →
        (pipeline tn w).1 = Err e
        ∧ pg_log (pipeline tn w).2 = pg_log w
        ∧ sf (pipeline tn w).2 = sf w
        ∧ sf_log (pipeline tn w).2
          = sf_log w ++ [(SelectMax (primary_key tn) tn, [])])
  ∧ (∀ m, (get_max_primary_key tn w).1 = Ok m →
        pg_log (pipeline tn w).2
        = pg_log w ++ [SelectColumnNames tn;
                       SelectWhereGt (discovered (pg w) tn) tn
                                     (primary_key tn) m]).
Proof.
  rewrite pipeline_run, get_max_primary_key_run. simpl.
  destruct (Sf.select_max _ _ _) as [o|e0]; split; try done.
  - intros m [= <-].
    set (wa := log_sf (SelectMax (primary_key tn) tn) [] w).
    destruct (extract tn (default 0 o) wa) as [[[cols rows]|e] w1] eqn:He.
    + destruct (load_run _ _ _ _ _ _ He) as (_ & _ & _ & _ & _ & -> & _).
      apply extract_Ok in He as (-> & -> & _). simpl.
      by rewrite <- app_assoc.
    + destruct (load_extract_Err _ _ _ _ _ He) as (-> & _).
      rewrite extract_run in He. injection He as _ <-. simpl.
      by rewrite <- app_assoc.
  - by intros e [= <-].
Qed.

(** X3. [load_incremental_data] never writes to the source and only ever
    appends to its own destination table: whether it succeeds or fails,
    every destination table keeps its columns and its rows, in place, a
    table other than its own gets no row, and no table is created. *)
Theorem load_append_only tn bound w :
  pg (load_incremental_data tn bound w).2 = pg w
  ∧ (∀ tn', sf w !! tn' = None →
            sf (load_incremental_data tn bound w).2 !! tn' = None)
  ∧ (∀ tn' dt, sf w !! tn' = Some dt →
       ∃ added,
         sf (load_incremental_data tn bound w).2 !! tn'
         = Some {| Sf.columns := Sf.columns dt;
                   Sf.rows := Sf.rows dt ++ added |}
         ∧ (tn' ≠ tn → added = [])).
Proof.
  assert (∃ stored, pg (load_incremental_data tn bound w).2 = pg w
            ∧ sf (load_incremental_data tn bound w).2
              = appended tn stored (sf w)) as (stored & Hpg & Hsf).
  { destruct (extract tn bound w) as [[[cols rows]|e] w1] eqn:He.
    - destruct (load_run _ _ _ _ _ _ He)
        as (_ & _ & stored & _ & Hpg & _ & _ & Hsf & _).
      by exists stored.
    - destruct (load_extract_Err _ _ _ _ _ He) as (-> & Hsf & _).
      exists []. rewrite appended_nil. split; [|done].
      rewrite extract_run in He. by injection He as _ <-. }
  split; [done|]. rewrite Hsf. split.
  - intros tn' Hnone. destruct (decide (tn = tn')) as [->|Hne].
    + by rewrite appended_lookup, Hnone.
    + by rewrite appended_lookup_ne.
  - intros tn' dt Hdt. destruct (decide (tn = tn')) as [->|Hne].
    + exists stored. by rewrite appended_lookup, Hdt.
    + exists []. rewrite appended_lookup_ne, app_nil_r by done.
      split; [by destruct dt|done].
Qed.



Section Frames.

Lemma appended_commute tn1 tn2 rs1 rs2 (db : gmap string Sf.table) :
  tn1 ≠ tn2 →
  appended tn1 rs1 (appended tn2 rs2 db) = appended tn2 rs2 (appended tn1 rs1 db).
Proof.
  intros Hne. unfold appended at 1 3.
  rewrite !appended_lookup_ne by done. unfold appended.
  destruct (db !! tn1) as [t1|] eqn:H1, (db !! tn2) as [t2|] eqn:H2;
    rewrite ?lookup_insert_ne, ?H1, ?H2 by done; try done.
  by apply insert_insert_ne.
Qed.

(** Whether the store takes a row, and the row it stores, depend on the
    columns of the table only. *)
Lemma insert_frame (db db' : gmap string Sf.table) tn cols n p :
  Sf.columns <$> db !! tn = Sf.columns <$> db' !! tn →
  match Sf.insert db tn cols n p with
  | Ok d => ∃ r, d = appended tn [r] db
                 ∧ Sf.insert db' tn cols n p = Ok (appended tn [r] db')
  | Err e => Sf.insert db' tn cols n p = Err e
  end.
Proof.
  unfold Sf.insert, appended.
  destruct (db !! tn) as [t|], (db' !! tn) as [t'|]; simpl; try done.
  intros [= ->]. destruct (Sf.check_row _ _ _ _) as [r|e]; [|done].
  by exists r.
Qed.

Lemma insert_rows_cons tn cols n p rows w :
  insert_rows (InsertValues tn cols n) (p :: rows) w
  = match Sf.insert (sf w) tn cols n p with
    | Ok db =>
        insert_rows (InsertValues tn cols n) rows
          (set_sf db (log_sf (InsertValues tn cols n) p w))
    | Err e => (Err e, log_sf (InsertValues tn cols n) p w)
    end.
Proof.
  simpl. unfold bind, sf_execute at 1.
  by destruct (Sf.insert (sf w) tn cols n p).
Qed.

Lemma insert_rows_frame tn cols n rows w w' :
  Sf.columns <$> sf w !! tn = Sf.columns <$> sf w' !! tn →
  (insert_rows (InsertValues tn cols n) rows w).1
  = (insert_rows (InsertValues tn cols n) rows w').1
  ∧ ∃ stored k,
      sf (insert_rows (InsertValues tn cols n) rows w).2
      = appended tn stored (sf w)
      ∧ sf (insert_rows (InsertValues tn cols n) rows w').2
        = appended tn stored (sf w')
      ∧ sf_log (insert_rows (InsertValues tn cols n) rows w).2
        = sf_log w ++ ((λ r, (InsertValues tn cols n, r)) <$> take k rows)
      ∧ sf_log (insert_rows (InsertValues tn cols n) rows w').2
        = sf_log w' ++ ((λ r, (InsertValues tn cols n, r)) <$> take k rows)
      ∧ (is_ok (insert_rows (InsertValues tn cols n) rows w).1 = true →
           length stored = length rows).
Proof.
  revert w w'. induction rows as [|p rows IH]; intros w w' Hcols.
  - split; [done|]. exists [], 0%nat. simpl.
    by rewrite !appended_nil, !app_nil_r.
  - rewrite !insert_rows_cons.
    pose proof (insert_frame (sf w) (sf w') tn cols n p Hcols) as Hf.
    destruct (Sf.insert (sf w) tn cols n p) as [d|e].
    + destruct Hf as (r & -> & ->).
      set (w1 := set_sf (appended tn [r] (sf w)) (log_sf (InsertValues tn cols n) p w)).
      set (w1' := set_sf (appended tn [r] (sf w')) (log_sf (InsertValues tn cols n) p w')).
      destruct (IH w1 w1') as (Hres & stored & k & Hs & Hs' & Hl & Hl' & Hlen).
      { simpl. rewrite !appended_lookup.
        destruct (sf w !! tn), (sf w' !! tn); simpl in *; done. }
      split; [done|]. exists (r :: stored), (S k).
      rewrite Hs, Hs', Hl, Hl'. simpl.
      rewrite !appended_appended, <- !app_assoc. simpl.
      repeat split; try done. intros Hok. by rewrite Hlen.
    + rewrite Hf. split; [done|]. exists [], 1%nat. simpl.
      rewrite !appended_nil. by repeat split.
Qed.

Lemma load_frame tn bound w w' :
  pg w = pg w' →
  Sf.columns <$> sf w !! tn = Sf.columns <$> sf w' !! tn →
  (load_incremental_data tn bound w).1 = (load_incremental_data tn bound w').1
  ∧ pg (load_incremental_data tn bound w).2 = pg w
  ∧ ∃ stored inserts,
      sf (load_incremental_data tn bound w).2 = appended tn stored (sf w)
      ∧ sf (load_incremental_data tn bound w').2 = appended tn stored (sf w')
      ∧ sf_log (load_incremental_data tn bound w).2 = sf_log w ++ inserts
      ∧ sf_log (load_incremental_data tn bound w').2 = sf_log w' ++ inserts
      ∧ ∀ cols rows w1,
          extract tn bound w = (Ok (cols, rows), w1) →
          is_ok (load_incremental_data tn bound w).1 = true →
          length stored = length rows.
Proof.
  intros Hpg Hcols. unfold load_incremental_data, bind.
  rewrite !extract_run, <- Hpg.
  destruct (Pg.select_where_gt _ _ _ _ _) as [rows|e]; simpl.
  - set (q := InsertValues tn (discovered (pg w) tn)
                           (length (discovered (pg w) tn))).
    set (wa := log_pg _ (log_pg _ w)). set (wa' := log_pg _ (log_pg _ w')).
    destruct (insert_rows_frame tn (discovered (pg w) tn)
                (length (discovered (pg w) tn)) rows wa wa' Hcols)
      as (Hres & stored & k & Hs & Hs' & Hl & Hl' & Hlen).
    split; [done|]. split.
    { destruct (insert_rows q rows wa) as [res wz] eqn:Hrun.
      apply insert_rows_run in Hrun as (_ & _ & _ & _ & Hp & _).
      simpl. by rewrite Hp. }
    exists stored, ((λ r, (q, r)) <$> take k rows).
    repeat split; try done.
    intros cols rows' w1 [= _ <- _]. done.
  - split; [done|]. split; [done|]. exists [], [].
    rewrite !appended_nil, !app_nil_r. by repeat split.
Qed.

Lemma pipeline_frame tn w w' :
  pg w = pg w' → sf w !! tn = sf w' !! tn →
  (pipeline tn w).1 = (pipeline tn w').1
  ∧ ∃ stored,
      sf (pipeline tn w).2 = appended tn stored (sf w)
      ∧ sf (pipeline tn w').2 = appended tn stored (sf w').
Proof.
  intros Hpg Hsf. rewrite !pipeline_run.
  assert (Sf.select_max (sf w) (primary_key tn) tn
          = Sf.select_max (sf w') (primary_key tn) tn) as <-
    by (unfold Sf.select_max; by rewrite Hsf).
  destruct (Sf.select_max _ _ _) as [o|e].
  - destruct (load_frame tn (default 0 o)
                (log_sf (SelectMax (primary_key tn) tn) [] w)
                (log_sf (SelectMax (primary_key tn) tn) [] w'))
      as (Hres & _ & stored & _ & Hs & Hs' & _); [done|by simpl; rewrite Hsf|].
    split; [done|]. by exists stored.
  - split; [done|]. exists []. by rewrite !appended_nil.
Qed.

End Frames.

(** X5. The pipelines of two different tables are independent: run one
    after the other in either order, they end in the same results and leave
    both stores in the same state. *)
Theorem pipelines_commute tn1 tn2 w :
  tn1 ≠ tn2 →
  (pipeline tn2 (pipeline tn1 w).2).1 = (pipeline tn2 w).1
  ∧ (pipeline tn1 (pipeline tn2 w).2).1 = (pipeline tn1 w).1
  ∧ sf (pipeline tn2 (pipeline tn1 w).2).2
    = sf (pipeline tn1 (pipeline tn2 w).2).2
  ∧ pg (pipeline tn2 (pipeline tn1 w).2).2
    = pg (pipeline tn1 (pipeline tn2 w).2).2.
Proof.
  intros Hne.
  destruct (pipeline_sf tn1 w) as (s1 & Hs1).
  destruct (pipeline_sf tn2 w) as (s2 & Hs2).
  destruct (pipeline_frame tn2 w (pipeline tn1 w).2)
    as (Hr2 & t2 & Ht2 & Ht2');
    [by rewrite pipeline_pg | by rewrite Hs1, appended_lookup_ne |].
  destruct (pipeline_frame tn1 w (pipeline tn2 w).2)
    as (Hr1 & t1 & Ht1 & Ht1');
    [by rewrite pipeline_pg | by rewrite Hs2, appended_lookup_ne |].
  split; [done|]. split; [done|]. split.
  - rewrite Ht2', Ht1', Ht1, Ht2. by apply appended_commute.
  - by rewrite !pipeline_pg.
Qed.

Lemma pipelines_commute_witness :
  sf (pipeline "vendedores" (pipeline "estados" Both.w0).2).2
  = sf (pipeline "estados" (pipeline "vendedores" Both.w0).2).2.
Proof.
  apply (pipelines_commute "estados" "vendedores" Both.w0).
  apply (bool_decide_unpack _). vm_compute. reflexivity.
Defined.

(** X6. The load does not look at what the destination already holds: run
    again with the watermark of the first run, on the same source, it
    succeeds again, executes the same inserts again, and the destination
    table ends with the rows of the batch stored twice. *)
Theorem load_again_same_watermark tn bound w cols rows w1 :
  extract tn bound w = (Ok (cols, rows), w1) →
  (load_incremental_data tn bound w).1 = Ok () →
  ∃ stored inserts,
    length stored = length rows
    ∧ sf (load_incremental_data tn bound w).2 = appended tn stored (sf w)
    ∧ sf_log (load_incremental_data tn bound w).2 = sf_log w ++ inserts
    ∧ (load_incremental_data tn bound (load_incremental_data tn bound w).2).1
      = Ok ()
    ∧ sf (load_incremental_data tn bound (load_incremental_data tn bound w).2).2
      = appended tn (stored ++ stored) (sf w)
    ∧ sf_log
        (load_incremental_data tn bound (load_incremental_data tn bound w).2).2
      = sf_log w ++ inserts ++ inserts.
Proof.
  intros He Hok.
  destruct (load_frame tn bound w w) as (_ & Hpg & s0 & _ & Hs0 & _); [done..|].
  destruct (load_frame tn bound w (load_incremental_data tn bound w).2)
    as (Hres & _ & stored & inserts & Hs & Hs' & Hl & Hl' & Hlen).
  { by rewrite Hpg. }
  { rewrite Hs0, appended_lookup. by destruct (sf w !! tn). }
  exists stored, inserts.
  split; [apply (Hlen _ _ _ He); by rewrite Hok|].
  split; [done|]. split; [done|]. split; [by rewrite <- Hres|].
  split.
  - by rewrite Hs', Hs, appended_appended.
  - by rewrite Hl', Hl, <- app_assoc.
Qed.

Lemma load_again_same_watermark_witness :
  Sf.rows <$> sf (load_incremental_data "estados" 3
                    (load_incremental_data "estados" 3 Scenario.w0).2).2
              !! "estados"
  = Some [Scenario.estado 1 "SP"; Scenario.estado 2 "RJ";
          Scenario.estado 3 "MG"; Scenario.estado 4 "PR";
          Scenario.estado 5 "BA"; Scenario.estado 4 "PR";
          Scenario.estado 5 "BA"].
Proof.
  destruct (load_again_same_watermark "estados" 3 Scenario.w0
              ["ID_estados"; "sigla"]
              [Scenario.estado 4 "PR"; Scenario.estado 5 "BA"]
              (extract "estados" 3 Scenario.w0).2)
    as (stored & inserts & _ & _ & _ & _ & Hsf & _);
    [vm_compute; reflexivity | vm_compute; reflexivity |].
  vm_compute. reflexivity.
Defined.

Section Postconditions.

Lemma ints_sublist (vs1 vs2 : list value) :
  vs1 `sublist_of` vs2 → ints vs1 `sublist_of` ints vs2.
Proof.
  induction 1 as [|v l1 l2 _ IH|v l1 l2 _ IH]; [constructor| |].
  - unfold ints. simpl. destruct (as_int v); [by constructor | done].
  - unfold ints. simpl. destruct (as_int v); [by constructor | done].
Qed.

(** One run of the pipeline of a table, on a destination that has the
    table and a source that resolves it: the rows added are the stored
    images of a prefix of the source rows above the watermark, the whole of
    them when the run succeeds. *)
Lemma pipeline_inv tn w m0 dt t :
  (get_max_primary_key tn w).1 = Ok m0 →
  sf w !! tn = Some dt →
  Pg.resolve (pg w) tn = Some t →
  ∃ k,
    (k ≤ length (filter (λ r, key_above m0
                                (field (Pg.columns t) (primary_key tn) r))
                        (Pg.rows t)))%nat
    ∧ sf (pipeline tn w).2
      = <[tn := Sf.add_rows
                  ((λ r, Sf.stored_row (discovered (pg w) tn)
                           (Pg.project (Pg.columns t) (discovered (pg w) tn) r)
                           (Sf.columns dt))
                     <$> take k (filter (λ r, key_above m0
                                   (field (Pg.columns t) (primary_key tn) r))
                                   (Pg.rows t))) dt]> (sf w)
    ∧ Sf.column_cells
        (Sf.add_rows
           ((λ r, Sf.stored_row (discovered (pg w) tn)
                    (Pg.project (Pg.columns t) (discovered (pg w) tn) r)
                    (Sf.columns dt))
              <$> take k (filter (λ r, key_above m0
                            (field (Pg.columns t) (primary_key tn) r))
                            (Pg.rows t))) dt) (primary_key tn)
      = Sf.column_cells dt (primary_key tn)
          ++ (field (Pg.columns t) (primary_key tn)
                <$> take k (filter (λ r, key_above m0
                              (field (Pg.columns t) (primary_key tn) r))
                              (Pg.rows t)))
    ∧ ((pipeline tn w).1 = Ok () →
         k = length (filter (λ r, key_above m0
                               (field (Pg.columns t) (primary_key tn) r))
                            (Pg.rows t)))
    ∧ (get_max_primary_key tn (pipeline tn w).2).1
      = Ok (default 0
              (max_of (ints (Sf.column_cells dt (primary_key tn))
                         ++ ints (field (Pg.columns t) (primary_key tn)
                                    <$> take k (filter (λ r, key_above m0
                                         (field (Pg.columns t) (primary_key tn) r))
                                         (Pg.rows t)))))).
Proof.
  intros Hm0 Hdt Ht. pose proof Hm0 as Hget.
  apply get_max_primary_key_Ok in Hm0 as (dt' & Hdt' & Hk & Hold & Hw).
  rewrite Hdt in Hdt'. injection Hdt' as <-.
  rewrite get_max_primary_key_run in Hget. simpl in Hget.
  rewrite pipeline_run.
  destruct (Sf.select_max _ _ _) as [o|e]; [|done].
  injection Hget as Hget. rewrite Hget.
  set (wa := log_sf (SelectMax (primary_key tn) tn) [] w).
  set (sel := filter (λ r, key_above m0
                             (field (Pg.columns t) (primary_key tn) r))
                     (Pg.rows t)).
  destruct (extract tn m0 wa) as [[[cols rows]|e] wb] eqn:He.
  - destruct (load_watermark _ _ _ _ _ _ dt He Hdt Hk Hold)
      as (k & Hle & Hall & Hsf & Hmax).
    apply extract_Ok in He
      as (Hcols & _ & t' & Ht' & _ & Hkc & _ & _ & Hrows).
    change (pg wa) with (pg w) in Hcols, Ht'.
    rewrite Ht in Ht'. injection Ht' as <-. fold sel in Hrows.
    assert (Hkeys : field cols (primary_key tn) <$> take k rows
                    = field (Pg.columns t) (primary_key tn) <$> take k sel).
    { rewrite Hrows, <- fmap_take, <- list_fmap_compose.
      apply list_fmap_ext. intros i r _. simpl. unfold Pg.project.
      by rewrite (field_fmap (λ c, field (Pg.columns t) c r)). }
    assert (Hadded : (λ p, Sf.stored_row cols p (Sf.columns dt)) <$> take k rows
                     = (λ r, Sf.stored_row cols (Pg.project (Pg.columns t) cols r)
                               (Sf.columns dt)) <$> take k sel)
      by (by rewrite Hrows, <- fmap_take, <- list_fmap_compose).
    rewrite Hadded in Hsf. rewrite Hkeys in Hmax. rewrite <- Hcols.
    rewrite Hrows, length_fmap in Hle, Hall.
    exists k. split; [done|]. split; [done|]. split; [|split; [|done]].
    + rewrite column_cells_add_rows. f_equal.
      rewrite <- Hkeys, <- Hadded, <- list_fmap_compose.
      apply list_fmap_ext. intros i p _. simpl. by apply stored_row_field.
    + intros Hok. apply Hall. by rewrite Hok.
  - destruct (load_extract_Err _ _ _ _ _ He) as (-> & Hsf & _).
    exists 0%nat. simpl. rewrite !app_nil_r, add_rows_nil.
    split; [lia|]. split; [by rewrite Hsf, insert_id|].
    split; [done|]. split; [done|].
    rewrite (get_max_primary_key_sf tn wb w) by done.
    apply get_max_primary_key_Ok. by exists dt.
Qed.

(** A pipeline run that succeeds found the table on both sides. *)
Lemma pipeline_Ok_inv tn w :
  (pipeline tn w).1 = Ok () →
  ∃ m0 dt t,
    (get_max_primary_key tn w).1 = Ok m0
    ∧ sf w !! tn = Some dt
    ∧ Pg.resolve (pg w) tn = Some t
    ∧ primary_key tn ∈ Sf.names dt
    ∧ m0 = watermark dt (primary_key tn)
    ∧ Forall (λ r, ¬ is_text (field (Pg.columns t) (primary_key tn) r))
             (Pg.rows t).
Proof.
  intros Hok. rewrite pipeline_run in Hok.
  destruct (Sf.select_max (sf w) (primary_key tn) tn) as [o|e] eqn:Hsel; [|done].
  assert (Hget : (get_max_primary_key tn w).1 = Ok (default 0 o))
    by (by rewrite get_max_primary_key_run, Hsel).
  pose proof Hget as Hget'.
  apply get_max_primary_key_Ok in Hget' as (dt & Hdt & Hk & _ & Hw).
  destruct (extract tn (default 0 o) (log_sf (SelectMax (primary_key tn) tn) [] w))
    as [[[cols rows]|e] wb] eqn:He;
    [|by destruct (load_extract_Err _ _ _ _ _ He) as (Hl & _); rewrite Hl in Hok].
  apply extract_Ok in He as (_ & _ & t & Ht & _ & _ & _ & Hall & _).
  by exists (default 0 o), dt, t.
Qed.

End Postconditions.

(** X7. The pipeline keeps keys distinct: when the integer keys of the
    source table are pairwise distinct and so are those of the destination
    table, they still are in the destination after a run, whether the run
    succeeded or stopped part of the way. *)
Theorem pipeline_keeps_keys_distinct tn w m0 dt t :
  (get_max_primary_key tn w).1 = Ok m0 →
  sf w !! tn = Some dt →
  Pg.resolve (pg w) tn = Some t →
  NoDup (ints (Sf.column_cells dt (primary_key tn))) →
  NoDup (ints (field (Pg.columns t) (primary_key tn) <$> Pg.rows t)) →
  ∃ dt', sf (pipeline tn w).2 !! tn = Some dt'
       ∧ NoDup (ints (Sf.column_cells dt' (primary_key tn))).
Proof.
  intros Hm0 Hdt Ht Hold Hsrc.
  destruct (pipeline_inv _ _ _ _ _ Hm0 Hdt Ht) as (k & _ & Hsf & Hcells & _).
  eexists. split; [by rewrite Hsf, lookup_insert_eq|].
  rewrite Hcells, ints_app. apply NoDup_app. split; [done|].
  apply get_max_primary_key_Ok in Hm0 as (dt' & Hdt' & _ & _ & Hw).
  rewrite Hdt in Hdt'. injection Hdt' as <-.
  split.
  - intros z Hz Hnew.
    apply list_elem_of_omap in Hnew as (v & Hv & Hint).
    apply list_elem_of_fmap in Hv as (r & -> & Hr).
    apply subseteq_take, list_elem_of_filter in Hr as [Habove _].
    destruct (field (Pg.columns t) (primary_key tn) r) as [|z'|]; try done.
    simpl in Hint, Habove. injection Hint as ->.
    unfold watermark in Hw.
    destruct (max_of (ints (Sf.column_cells dt (primary_key tn))))
      as [m|] eqn:Hmax.
    + apply max_of_Some in Hmax as [_ Hle]. rewrite Forall_forall in Hle.
      specialize (Hle _ Hz). simpl in Hw. lia.
    + apply max_of_nil in Hmax. rewrite Hmax in Hz. by apply elem_of_nil in Hz.
  - eapply sublist_NoDup; [exact Hsrc|].
    apply ints_sublist, fmap_sublist.
    etrans; [apply sublist_take | apply sublist_filter].
Qed.

Lemma pipeline_keeps_keys_distinct_witness :
  ∃ dt', sf (pipeline "estados" Scenario.w0).2 !! "estados" = Some dt'
       ∧ NoDup (ints (Sf.column_cells dt' "ID_estados")).
Proof.
  apply (pipeline_keeps_keys_distinct "estados" Scenario.w0 3
           {| Sf.columns := Scenario.estados_columns;
              Sf.rows := [Scenario.estado 1 "SP"; Scenario.estado 2 "RJ";
                          Scenario.estado 3 "MG"] |}
           {| Pg.table_schema := "public"; Pg.table_name := "estados";
              Pg.columns := ["ID_estados"; "sigla"];
              Pg.rows := [Scenario.estado 1 "SP"; Scenario.estado 2 "RJ";
                          Scenario.estado 3 "MG"; Scenario.estado 4 "PR";
                          Scenario.estado 5 "BA"] |}).
  - vm_compute. reflexivity.
  - reflexivity.
  - reflexivity.
  - apply (bool_decide_unpack _). vm_compute. reflexivity.
  - apply (bool_decide_unpack _). vm_compute. reflexivity.
Defined.

(** X8. What a successful pipeline run leaves in the destination table:
    its old rows, followed by one row for each source row whose key is
    above the watermark read at the start, in source order.  In such a
    row a destination column holds the source cell of the same name when
    the discovered column list names it, and NULL when it does not. *)
Theorem pipeline_postcondition tn w :
  (pipeline tn w).1 = Ok () →
  ∃ m0 dt t,
    (get_max_primary_key tn w).1 = Ok m0
    ∧ sf w !! tn = Some dt
    ∧ Pg.resolve (pg w) tn = Some t
    ∧ sf (pipeline tn w).2 !! tn
      = Some {| Sf.columns := Sf.columns dt;
                Sf.rows :=
                  Sf.rows dt
                  ++ ((λ r, Sf.stored_row (discovered (pg w) tn)
                              (Pg.project (Pg.columns t) (discovered (pg w) tn) r)
                              (Sf.columns dt))
                        <$> filter (λ r, key_above m0
                                      (field (Pg.columns t) (primary_key tn) r))
                                   (Pg.rows t)) |}
    ∧ ∀ r c, c ∈ Sf.names dt →
        field (Sf.names dt) c
          (Sf.stored_row (discovered (pg w) tn)
             (Pg.project (Pg.columns t) (discovered (pg w) tn) r)
             (Sf.columns dt))
        = if decide (c ∈ discovered (pg w) tn)
          then field (Pg.columns t) c r else VNull.
Proof.
  intros Hok.
  destruct (pipeline_Ok_inv _ _ Hok) as (m0 & dt & t & Hm0 & Hdt & Ht & _).
  destruct (pipeline_inv _ _ _ _ _ Hm0 Hdt Ht) as (k & _ & Hsf & _ & Hk & _).
  specialize (Hk Hok). subst k. rewrite take_ge in Hsf by done.
  exists m0, dt, t. split; [done|]. split; [done|]. split; [done|].
  split; [by rewrite Hsf, lookup_insert_eq|].
  intros r c Hc. unfold Sf.names. rewrite stored_row_field by done.
  unfold Pg.project. case_decide as Hin.
  - by rewrite (field_fmap (λ c, field (Pg.columns t) c r)).
  - by rewrite (field_fmap_absent (λ c, field (Pg.columns t) c r)).
Qed.

Lemma pipeline_postcondition_witness :
  ∃ m0 dt t,
    (get_max_primary_key "estados" Scenario.w0).1 = Ok m0
    ∧ sf Scenario.w0 !! "estados" = Some dt
    ∧ Pg.resolve Scenario.source "estados" = Some t.
Proof.
  destruct (pipeline_postcondition "estados" Scenario.w0)
    as (m0 & dt & t & Hm & Hdt & Ht & _); [vm_compute; reflexivity|].
  exists m0, dt, t. split; [exact Hm|]. split; [exact Hdt | exact Ht].
Defined.

(** X9. A successful pipeline run catches up with the source: the
    watermark read from the destination afterwards is at least every
    integer key of the source table. *)
Theorem pipeline_catches_up tn w :
  (pipeline tn w).1 = Ok () →
  ∃ m1 t,
    Pg.resolve (pg w) tn = Some t
    ∧ (get_max_primary_key tn (pipeline tn w).2).1 = Ok m1
    ∧ ∀ r z, r ∈ Pg.rows t →
        field (Pg.columns t) (primary_key tn) r = VInt z → z ≤ m1.
Proof.
  intros Hok.
  destruct (pipeline_Ok_inv _ _ Hok)
    as (m0 & dt & t & Hm0 & Hdt & Ht & _ & Hw & _).
  destruct (pipeline_inv _ _ _ _ _ Hm0 Hdt Ht) as (k & _ & _ & _ & Hk & Hmax).
  specialize (Hk Hok). subst k. rewrite take_ge in Hmax by done.
  eexists _, t. split; [done|]. split; [exact Hmax|].
  intros r z Hr Hz. destruct (decide (m0 < z)) as [Hlt|Hge].
  - apply max_of_covers, list_elem_of_omap. exists (VInt z).
    split; [|done]. rewrite <- Hz. apply list_elem_of_fmap_2.
    apply list_elem_of_filter. by rewrite Hz.
  - etrans; [|apply max_of_grows; [exact Hw|]]; [lia|].
    apply keys_above_ints, Forall_fmap, Forall_forall.
    by intros x [Hx _]%list_elem_of_filter.
Qed.

Lemma pipeline_catches_up_witness :
  ∃ m1 t,
    Pg.resolve Scenario.source "estados" = Some t
    ∧ (get_max_primary_key "estados" (pipeline "estados" Scenario.w0).2).1
      = Ok m1
    ∧ ∀ r z, r ∈ Pg.rows t → field (Pg.columns t) "ID_estados" r = VInt z →
             z ≤ m1.
Proof.
  apply (pipeline_catches_up "estados" Scenario.w0).
  vm_compute. reflexivity.
Defined.

(** X10. First load into a destination table that has no key yet: the
    watermark is the sentinel 0, so a successful run adds the stored image
    of exactly the source rows whose key is above 0, in source order.  It
    is a full load when every source key is positive; a source row whose
    key is 0, negative or NULL is not among the rows added, and fewer rows
    are added than the source has. *)
Theorem pipeline_bootstrap tn w dt :
  sf w !! tn = Some dt →
  ints (Sf.column_cells dt (primary_key tn)) = [] →
  (pipeline tn w).1 = Ok () →
  ∃ t,
    Pg.resolve (pg w) tn = Some t
    ∧ (get_max_primary_key tn w).1 = Ok 0
    ∧ sf (pipeline tn w).2 !! tn
      = Some {| Sf.columns := Sf.columns dt;
                Sf.rows :=
                  Sf.rows dt
                  ++ ((λ r, Sf.stored_row (discovered (pg w) tn)
                              (Pg.project (Pg.columns t) (discovered (pg w) tn) r)
                              (Sf.columns dt))
                        <$> filter (λ r, key_above 0
                                      (field (Pg.columns t) (primary_key tn) r))
                                   (Pg.rows t)) |}
    ∧ (Forall (λ r, key_above 0 (field (Pg.columns t) (primary_key tn) r))
              (Pg.rows t) →
       filter (λ r, key_above 0 (field (Pg.columns t) (primary_key tn) r))
              (Pg.rows t) = Pg.rows t)
    ∧ (∀ r, r ∈ Pg.rows t →
         ¬ key_above 0 (field (Pg.columns t) (primary_key tn) r) →
         (r ∉ filter (λ r, key_above 0
                             (field (Pg.columns t) (primary_key tn) r))
                     (Pg.rows t))
         ∧ (length (filter (λ r, key_above 0
                              (field (Pg.columns t) (primary_key tn) r))
                           (Pg.rows t)) < length (Pg.rows t))%nat).
Proof.
  intros Hdt Hnone Hok.
  destruct (pipeline_Ok_inv _ _ Hok)
    as (m0 & dt' & t & Hm0 & Hdt' & Ht & _ & Hw & _).
  rewrite Hdt in Hdt'. injection Hdt' as <-.
  unfold watermark in Hw. rewrite Hnone in Hw. simpl in Hw. subst m0.
  destruct (pipeline_inv _ _ _ _ _ Hm0 Hdt Ht) as (k & _ & Hsf & _ & Hk & _).
  specialize (Hk Hok). subst k. rewrite take_ge in Hsf by done.
  exists t. split; [done|]. split; [done|].
  split; [by rewrite Hsf, lookup_insert_eq|]. split.
  - intros Hall. clear -Hall.
    induction Hall as [|r rs Hr _ IH]; [done|].
    by rewrite filter_cons_True, IH.
  - intros r Hr Hnot. split.
    + by intros [? _]%list_elem_of_filter.
    + by eapply length_filter_lt.
Qed.

Lemma pipeline_bootstrap_witness :
  (get_max_primary_key "vendedores" Bootstrap.w0).1 = Ok 0
  ∧ sf (pipeline "vendedores" Bootstrap.w0).2 !! "vendedores"
    = Some {| Sf.columns :=
                [ {| Sf.column_name := "ID_vendedores"; Sf.not_null := true |};
                  {| Sf.column_name := "nome"; Sf.not_null := true |} ];
              Sf.rows := [[VInt 1; VText "Ana"]] |}.
Proof.
  destruct (pipeline_bootstrap "vendedores" Bootstrap.w0
              {| Sf.columns :=
                   [ {| Sf.column_name := "ID_vendedores"; Sf.not_null := true |};
                     {| Sf.column_name := "nome"; Sf.not_null := true |} ];
                 Sf.rows := [] |})
    as (t & Ht & Hm & Hsf & _);
    [reflexivity | reflexivity | vm_compute; reflexivity |].
  split; [exact Hm|].
  vm_compute in Ht. injection Ht as <-. exact Hsf.
Defined.

(** X11. Over any schedule of pipeline runs the destination is append
    only: a table keeps its columns and its rows, in place, with added rows
    after them, and a table the destination does not have is never created;
    the pipeline of such a table fails with the error of the watermark
    task, whatever the source holds. *)
Theorem runs_append_only schedule w :
  (∀ tn, sf w !! tn = None →
         sf (runs schedule w) !! tn = None
         ∧ (pipeline tn w).1 = Err (UndefinedTable tn))
  ∧ (∀ tn dt, sf w !! tn = Some dt →
       ∃ added,
         sf (runs schedule w) !! tn
         = Some {| Sf.columns := Sf.columns dt;
                   Sf.rows := Sf.rows dt ++ added |}).
Proof.
  assert (Hstep : ∀ tn' db w tn,
    sf (pipeline tn' (set_pg db w)).2 !! tn = sf w !! tn
    ∨ ∃ dt stored, sf w !! tn = Some dt
        ∧ sf (pipeline tn' (set_pg db w)).2 !! tn
          = Some (Sf.add_rows stored dt)).
  { intros tn' db w0 tn. destruct (pipeline_sf tn' (set_pg db w0)) as (stored & ->).
    simpl. destruct (decide (tn' = tn)) as [->|Hne].
    - rewrite appended_lookup. destruct (sf w0 !! tn) as [dt|]; [|by left].
      right. by exists dt, stored.
    - left. by apply appended_lookup_ne. }
  split.
  - intros tn Hnone. split.
    + revert w Hnone. induction schedule as [|[tn' db] schedule IH];
        intros w Hnone; [done|].
      simpl. apply IH.
      destruct (Hstep tn' db w tn) as [->|(dt & _ & Hdt & _)]; [done|].
      by rewrite Hnone in Hdt.
    + rewrite pipeline_run. unfold Sf.select_max. by rewrite Hnone.
  - revert w. induction schedule as [|[tn' db] schedule IH];
      intros w tn dt Hdt.
    + exists []. rewrite app_nil_r. simpl. by destruct dt.
    + simpl.
      destruct (Hstep tn' db w tn) as [Heq|(dt' & stored & Hdt' & Hnew)].
      * rewrite Hdt in Heq. by apply IH.
      * rewrite Hdt in Hdt'. injection Hdt' as <-.
        destruct (IH _ _ _ Hnew) as (added & ->).
        exists (stored ++ added). simpl. by rewrite app_assoc.
Qed.
